(** * fsm: a guarded finite-state-machine engine (package [fsm], file fsm.go)

    The development embeds the Go package in Rocq and states its
    behaviour as theorems.

    - [State], [T], [Transition], [Guard], [RuleSet] and [Stater]
      follow the declarations of fsm.go.
    - A Go [map[Transition][]Guard] is a [gmap Transition (list Guard)];
      the methods that write the map ([AddRule], [AddTransition]) pass
      the map explicitly.  [Mem] and [AddRule_mem] model the same map
      with its guard lists as slices on backing arrays, for what
      depends on [append] writing in place.
    - [Permitted] and [Machine.Transition] work on shared objects (the
      rule set behind [Machine.Rules], the subject behind
      [Machine.Subject]); they are written in a small state monad over
      the [World] those references point to.
    - The goroutines of [Permitted] are modelled twice: as the function
      [Permitted] (outcomes received in launch order) and, in module
      [Sched], as an interleaving step relation; [Sched] proves that
      every interleaving returns what the function returns. *)

From Stdlib Require Import ZArith Lia.
From stdpp Require Import base option list relations countable strings gmap.

Open Scope Z_scope.

(** ** Data model *)

(** [type State int] *)
Definition State : Type := Z.

(** [type T struct { O, E State }] *)
Record T : Type := mkT { O : State; E : State }.

(** A value of the interface type [Transition] is a dynamic type
    together with a value of that type.  [IfaceT t] is a value whose
    dynamic type is the package's struct [T]; [IfaceImpl ty o e] is a
    value of a caller-defined comparable struct type named [ty] that
    holds the two states its [Origin] and [Exit] methods return.  Go
    compares two interface values (and so two map keys) by dynamic type
    first and by value second, which is exactly equality of this
    inductive type.  Pointer types such as [*T], whose keys compare by
    address, are not modelled. *)
Inductive Transition : Type :=
  | IfaceT (t : T)
  | IfaceImpl (ty : string) (o e : State).

Coercion IfaceT : T >-> Transition.

(** [func (t T) Origin() State], [func (t T) Exit() State], and the
    same methods of the other implementations. *)
Definition Origin (t : Transition) : State :=
  match t with
  | IfaceT t => O t
  | IfaceImpl _ o _ => o
  end.

Definition Exit (t : Transition) : State :=
  match t with
  | IfaceT t => E t
  | IfaceImpl _ _ e => e
  end.

#[global] Instance T_eq_dec : EqDecision T.
Proof. solve_decision. Defined.

#[global] Instance Transition_eq_dec : EqDecision Transition.
Proof. solve_decision. Defined.

Definition Transition_to_sum (t : Transition) : Z * Z + string * (Z * Z) :=
  match t with
  | IfaceT t => inl (O t, E t)
  | IfaceImpl ty o e => inr (ty, (o, e))
  end.

Definition Transition_of_sum (x : Z * Z + string * (Z * Z)) : Transition :=
  match x with
  | inl (o, e) => IfaceT (mkT o e)
  | inr (ty, (o, e)) => IfaceImpl ty o e
  end.

#[global] Instance Transition_countable : Countable Transition.
Proof.
  apply (inj_countable' Transition_to_sum Transition_of_sum).
  intros [[o e]|ty o e]; reflexivity.
Defined.

(** [errors.New] and the package's sentinel error. *)
Record error : Type := errors_New { Error : string }.

Definition ErrInvalidTransition : error := errors_New "invalid transition".

(** [type Stater interface { CurrentState() State; SetState(State) }].
    An implementation is a type of subject objects with the two
    methods; [SetState] returns the object after the call. *)
Class Stater (S : Type) : Type := {
  CurrentState : S -> State;
  SetState : S -> State -> S
}.

(** The simplest subject: a struct with one field holding the state. *)
Record Thing : Type := mkThing { ThingState : State }.

#[global] Instance Thing_Stater : Stater Thing := {
  CurrentState t := ThingState t;
  SetState _ s := mkThing s
}.

(** A subject that ignores [SetState]: a legal implementation of the
    interface, used below to show that the call log, and not only the
    reported state, tells whether [SetState] was called. *)
Record Stuck : Type := mkStuck { StuckState : State }.

#[global] Instance Stuck_Stater : Stater Stuck := {
  CurrentState t := StuckState t;
  SetState t _ := t
}.

(** [type Guard func(subject Stater, goal State) bool].  A guard is a
    total function of the subject and the goal: it reads the subject
    and neither writes it nor fails to return. *)
Abbreviation Guard Subj := (Subj -> State -> bool).

Section Package.

Context {Subj : Type} {Stater_Subj : Stater Subj}.

(** [type RuleSet map[Transition][]Guard] *)
Local Abbreviation RuleSet := (gmap Transition (list (Guard Subj))).

(** The one-result index expression [r[t]]: the zero value (a nil
    slice) when the key is absent. *)
Definition index (r : RuleSet) (t : Transition) : list (Guard Subj) :=
  default [] (r !! t).

(** [func (r RuleSet) AddRule(t Transition, guards ...Guard)]: one
    [r[t] = append(r[t], guard)] for each guard, in argument order.
    The function returns the map after the call.  Each guard list is a
    value of its own here; [AddRule_mem] below is the same method on
    slices in memory, where lists may share a backing array, and
    [AddRule_mem_abs] shows that the two agree when none do. *)
Definition AddRule (r : RuleSet) (t : Transition) (guards : list (Guard Subj)) : RuleSet :=
  foldl (fun r guard => <[t := index r t ++ [guard]]> r) r guards.

(** The closure that [AddTransition] registers. *)
Definition default_guard (t : Transition) : Guard Subj :=
  fun subject _ => CurrentState subject =? Origin t.

(** [func (r RuleSet) AddTransition(t Transition)] *)
Definition AddTransition (r : RuleSet) (t : Transition) : RuleSet :=
  AddRule r t [default_guard t].

(** [func CreateRuleSet(transitions ...Transition) RuleSet]: the loop
    over [transitions], started on the empty map [RuleSet{}]. *)
Fixpoint CreateRuleSet_loop (r : RuleSet) (transitions : list Transition) : RuleSet :=
  match transitions with
  | [] => r
  | t :: rest => CreateRuleSet_loop (AddTransition r t) rest
  end.

Definition CreateRuleSet (transitions : list Transition) : RuleSet :=
  CreateRuleSet_loop ∅ transitions.

(** ** The objects a machine refers to

    [type Machine struct { Rules *RuleSet; Subject Stater }] holds two
    references.  A [World] holds what they refer to, and the list of
    the [SetState] calls made on the subject so far, oldest first. *)
Record World : Type := mkWorld {
  Rules : RuleSet;
  Subject : Subj;
  SetStateCalls : list State
}.

(** Computations that read and write the world. *)
Definition Eff (A : Type) : Type := World -> A * World.

Definition ret {A : Type} (a : A) : Eff A := fun w => (a, w).

Definition bind {A B : Type} (c : Eff A) (k : A -> Eff B) : Eff B :=
  fun w => let (a, w') := c w in k a w'.

Notation "'let*' x ':=' c 'in' k" := (bind c (fun x => k))
  (at level 10, x name, c at level 100, k at level 200).

(** [subject.CurrentState()] *)
Definition call_CurrentState : Eff State :=
  fun w => (CurrentState (Subject w), w).

(** [subject.SetState(s)] *)
Definition call_SetState (s : State) : Eff unit :=
  fun w => (tt, {| Rules := Rules w;
                   Subject := SetState (Subject w) s;
                   SetStateCalls := SetStateCalls w ++ [s] |}).

(** The two-result index expression [guards, ok := r[attempt]]. *)
Definition lookup_rule (attempt : Transition) : Eff (option (list (Guard Subj))) :=
  fun w => (Rules w !! attempt, w).

(** [for _, guard := range guards { go func(g Guard) { outcome <- g(subject, goal) }(guard) }]:
    every guard is applied to the subject and the goal; the result is
    the list of the values the goroutines send, in launch order. *)
Definition launch (guards : list (Guard Subj)) (goal : State) : Eff (list bool) :=
  fun w => (map (fun g => g (Subject w) goal) guards, w).

(** [for range guards { o := <-outcome; if !o { return false } }; return true] *)
Fixpoint receive (outcomes : list bool) : bool :=
  match outcomes with
  | [] => true
  | o :: rest => if negb o then false else receive rest
  end.

(** [func (r RuleSet) Permitted(subject Stater, goal State) bool] *)
Definition Permitted (goal : State) : Eff bool :=
  let* cur := call_CurrentState in
  let attempt : Transition := IfaceT (mkT cur goal) in
  let* found := lookup_rule attempt in
  match found with
  | Some guards =>
      let* outcomes := launch guards goal in
      ret (receive outcomes)
  | None => ret false
  end.

(** [func (m Machine) Transition(goal State) error]; [None] is [nil]. *)
Definition Machine_Transition (goal : State) : Eff (option error) :=
  let* ok := Permitted goal in
  if ok then
    let* _ := call_SetState goal in
    ret None
  else ret (Some ErrInvalidTransition).

(** The key [Permitted] looks up in world [w] for [goal]. *)
Definition attempt_key (w : World) (goal : State) : Transition :=
  IfaceT (mkT (CurrentState (Subject w)) goal).

End Package.

(** ** The goroutines of [Permitted]

    After a successful lookup [Permitted] starts one goroutine per
    guard, each sending its guard's result on the unbuffered channel
    [outcome], and then receives from the channel once per guard,
    returning [false] at the first [false] received.  [Sched.step] is
    one atomic action of that program under an arbitrary scheduler. *)
Module Sched.

(** What a goroutine is doing. *)
Inductive Phase : Type :=
  | Waiting               (* the [go] statement has not run yet *)
  | Running               (* inside [g(subject, goal)] *)
  | Sending (o : bool)    (* the guard returned [o]; blocked in [outcome <- o] *)
  | Exited.               (* the send was received; the goroutine is over *)

(** What the caller of [Permitted] is doing. *)
Inductive Caller : Type :=
  | Launching (k : nat)   (* first loop, [k] goroutines started *)
  | Receiving (n : nat)   (* second loop, [n] iterations left *)
  | Returned (b : bool).  (* [Permitted] has returned [b] *)

Section Run.

Context {Subj : Type}.
Variables (subject : Subj) (goal : State).

Record Task : Type := mkTask { guard : Guard Subj; phase : Phase }.

Record Config : Type := mkConfig { caller : Caller; tasks : list Task }.

(** The state on entry to the first loop. *)
Definition init (guards : list (Guard Subj)) : Config :=
  mkConfig (Launching 0) (map (fun g => mkTask g Waiting) guards).

Inductive step : Config -> Config -> Prop :=
  | step_go k ts g :
      (* [go func(g Guard) {...}(guard)] for the next guard *)
      ts !! k = Some (mkTask g Waiting) ->
      step (mkConfig (Launching k) ts)
           (mkConfig (Launching (S k)) (<[k := mkTask g Running]> ts))
  | step_launched k ts :
      (* the first loop ends, the second begins *)
      k = length ts ->
      step (mkConfig (Launching k) ts) (mkConfig (Receiving (length ts)) ts)
  | step_eval cl ts i g :
      (* a guard returns; its goroutine reaches the send.  The caller
         may be anywhere, also past its [return]. *)
      ts !! i = Some (mkTask g Running) ->
      step (mkConfig cl ts)
           (mkConfig cl (<[i := mkTask g (Sending (g subject goal))]> ts))
  | step_recv n ts i g o :
      (* [o := <-outcome] meets the send of goroutine [i] *)
      ts !! i = Some (mkTask g (Sending o)) ->
      step (mkConfig (Receiving (S n)) ts)
           (mkConfig (if o then Receiving n else Returned false)
                     (<[i := mkTask g Exited]> ts))
  | step_return ts :
      (* the second loop ends: [return true] *)
      step (mkConfig (Receiving 0) ts) (mkConfig (Returned true) ts).

(** Guards whose goroutine is over. *)
Definition is_exited (t : Task) : bool :=
  match phase t with Exited => true | _ => false end.

Definition is_waiting (t : Task) : bool :=
  match phase t with Waiting => true | _ => false end.

Definition is_running (t : Task) : bool :=
  match phase t with Running => true | _ => false end.

(** The guard's call has returned. *)
Definition evaluated (t : Task) : bool :=
  match phase t with Sending _ | Exited => true | _ => false end.

Fixpoint exited (ts : list Task) : nat :=
  match ts with
  | [] => 0
  | t :: ts => (if is_exited t then 1 else 0) + exited ts
  end.

(** Work left in a configuration: every step uses some up. *)
Definition phase_fuel (p : Phase) : nat :=
  match p with Waiting => 3 | Running => 2 | Sending _ => 1 | Exited => 0 end.

Definition caller_fuel (cl : Caller) : nat :=
  match cl with Launching _ => 2 | Receiving _ => 1 | Returned _ => 0 end.

Fixpoint tasks_fuel (ts : list Task) : nat :=
  match ts with
  | [] => 0
  | t :: ts => phase_fuel (phase t) + tasks_fuel ts
  end.

Definition fuel (c : Config) : nat :=
  caller_fuel (caller c) + tasks_fuel (tasks c).

(** What holds of every configuration reachable from [init guards]. *)
Definition caller_inv (cl : Caller) (ts : list Task) : Prop :=
  match cl with
  | Launching k =>
      (k <= length ts)%nat /\
      forall i t, ts !! i = Some t ->
        if decide (i < k)%nat
        then phase t = Running \/ phase t = Sending (guard t subject goal)
        else phase t = Waiting
  | Receiving n =>
      (exited ts + n = length ts)%nat /\
      Forall (fun t => is_waiting t = false) ts /\
      Forall (fun t => is_exited t = true -> guard t subject goal = true) ts
  | Returned true =>
      Forall (fun t => phase t = Exited /\ guard t subject goal = true) ts
  | Returned false =>
      Forall (fun t => is_waiting t = false) ts /\
      Exists (fun t => phase t = Exited /\ guard t subject goal = false) ts
  end.

Record Inv (guards : list (Guard Subj)) (c : Config) : Prop := mkInv {
  inv_guards : map guard (tasks c) = guards;
  inv_sending :
    Forall (fun t => forall o, phase t = Sending o -> o = guard t subject goal) (tasks c);
  inv_caller : caller_inv (caller c) (tasks c)
}.

End Run.
End Sched.

(** The spec's reading of [CreateRuleSet]: start from an empty rule set
    and call [AddTransition] once per transition, first to last. *)
Definition manual_AddTransitions {Subj : Type} {Stater_Subj : Stater Subj}
    (transitions : list Transition) : gmap Transition (list (Guard Subj)) :=
  foldl AddTransition ∅ transitions.

(** ** Example data

    The two states of the spec's example, a subject at each of them,
    two constant guards, and a transition value of a caller-defined
    type [Edge] (a struct of two states with [Origin] and [Exit]
    methods) next to the same pair as a [T]. *)
Definition StateIdle : State := 0.
Definition StateRunning : State := 1.

Definition idle_thing : Thing := mkThing StateIdle.
Definition running_thing : Thing := mkThing StateRunning.

Definition always {Subj : Type} (b : bool) : Guard Subj := fun _ _ => b.

Definition idle_to_running : T := mkT StateIdle StateRunning.
Definition edge_idle_to_running : Transition := IfaceImpl "Edge" StateIdle StateRunning.

(** [CreateRuleSet(T{Idle, Running})] *)
Definition rules_T : gmap Transition (list (Guard Thing)) :=
  CreateRuleSet [IfaceT idle_to_running].

(** [CreateRuleSet(Edge{Idle, Running})] *)
Definition rules_Edge : gmap Transition (list (Guard Thing)) :=
  CreateRuleSet [edge_idle_to_running].

(** A rule set with guards under keys other than (Idle, Running). *)
Definition rules_elsewhere : gmap Transition (list (Guard Thing)) :=
  AddRule (AddRule ∅ (mkT StateRunning StateIdle) [always true])
          (mkT StateRunning StateRunning) [always true; always true].

(** The guards of a rejected attempt, and the moment [Permitted] has
    returned false on the first guard's outcome while the second guard
    is still inside its call. *)
Definition two_guards : list (Guard Thing) := [always false; always true].

Definition rejected_early : @Sched.Config Thing :=
  Sched.mkConfig (Sched.Returned false)
    [Sched.mkTask (always false) Sched.Exited;
     Sched.mkTask (always true) Sched.Running].

(** A world for rule set [r] and subject [s] on which [SetState] has
    not been called yet. *)
Definition fresh_world {Subj : Type} (r : gmap Transition (list (Guard Subj)))
    (s : Subj) : World :=
  mkWorld r s [].

(** ** Building and driving a machine *)

(** [func New(rules *RuleSet, subject Stater) *Machine]: the machine
    refers to the two arguments and checks nothing.  The world of the
    new machine holds them, with no [SetState] call made through it
    yet. *)
Definition New {Subj : Type} (rules : gmap Transition (list (Guard Subj)))
    (subject : Subj) : World :=
  {| Rules := rules; Subject := subject; SetStateCalls := [] |}.

(** A caller that makes one [m.Transition(goal)] call per goal, first
    to last, and keeps the errors. *)
Fixpoint Transition_each {Subj : Type} {Stater_Subj : Stater Subj}
    (goals : list State) (w : World) : list (option error) * World :=
  match goals with
  | [] => ([], w)
  | goal :: rest =>
      let (err, w1) := Machine_Transition goal w in
      let (errs, w2) := Transition_each rest w1 in
      (err :: errs, w2)
  end.

(** A subject that reports the state it was last given.  The package
    does not require it; [Thing] is one, [Stuck] is not. *)
Definition Lawful (Subj : Type) {Stater_Subj : Stater Subj} : Prop :=
  forall (s : Subj) (goal : State), CurrentState (SetState s goal) = goal.

(** The goals, taken in order from state [from], follow transitions
    registered as values of type [T]. *)
Fixpoint path (transitions : list Transition) (from : State) (goals : list State) : Prop :=
  match goals with
  | [] => True
  | goal :: rest => IfaceT (mkT from goal) ∈ transitions /\ path transitions goal rest
  end.

(** The rule sets a caller can reach through the package's functions
    alone: the empty one, and what [AddRule] and [AddTransition] make
    of a reachable one. *)
Inductive built {Subj : Type} {Stater_Subj : Stater Subj} :
    gmap Transition (list (Guard Subj)) -> Prop :=
  | built_empty : built ∅
  | built_AddRule r t guards : built r -> built (AddRule r t guards)
  | built_AddTransition r t : built r -> built (AddTransition r t).

(** World [w] with its rule set replaced by [r]: what a method that
    writes the map behind [Machine.Rules] leaves. *)
Definition with_rules {Subj : Type} (w : @World Subj)
    (r : gmap Transition (list (Guard Subj))) : World :=
  {| Rules := r; Subject := Subject w; SetStateCalls := SetStateCalls w |}.

(** Further example data. *)
Definition running_to_idle : T := mkT StateRunning StateIdle.

(** [rejected_early] one step later: the second guard has returned and
    its goroutine is blocked in the send. *)
Definition rejected_blocked : @Sched.Config Thing :=
  Sched.mkConfig (Sched.Returned false)
    [Sched.mkTask (always false) Sched.Exited;
     Sched.mkTask (always true) (Sched.Sending true)].

(** ** Guard lists as slices in memory

    A Go slice is a window on a backing array: the array, the offset of
    the window, its length and its capacity.  Two slices may share an
    array.  [append] writes the new element into the array behind the
    slice when the capacity allows, and allocates a fresh array
    otherwise.  [AddRule] above is [AddRule_mem] seen through [abs]
    when no two keys share an array ([AddRule_mem_abs] below), which is
    the case for every rule set made by the package's functions. *)
Record Slice : Type := mkSlice { arr : nat; off : nat; len : nat; cap : nat }.

(** The nil slice, the zero value [r[t]] gives for an absent key. *)
Definition nil_slice : Slice := mkSlice 0 0 0 0.

Section Memory.

Context {Subj : Type} {Stater_Subj : Stater Subj}.

(** The spare capacity the runtime adds when [append] allocates an
    array for [n] elements; the language leaves it open. *)
Variable spare : nat -> nat.

(** The arrays allocated so far (a cell is [None] while it holds the
    nil function) and the map from transitions to slices. *)
Record Mem : Type := mkMem {
  heap : list (list (option (Guard Subj)));
  table : gmap Transition Slice
}.

(** [RuleSet{}] with nothing allocated. *)
Definition Mem_empty : Mem := mkMem [] ∅.

Definition array (h : list (list (option (Guard Subj)))) (s : Slice) :
    list (option (Guard Subj)) :=
  default [] (h !! arr s).

(** The elements of a slice. *)
Definition view (h : list (list (option (Guard Subj)))) (s : Slice) :
    list (option (Guard Subj)) :=
  take (len s) (drop (off s) (array h s)).

(** [append(s, x)] *)
Definition append (h : list (list (option (Guard Subj)))) (s : Slice) (x : Guard Subj) :
    list (list (option (Guard Subj))) * Slice :=
  if decide (len s < cap s)%nat
  then (<[arr s := <[(off s + len s)%nat := Some x]> (array h s)]> h,
        mkSlice (arr s) (off s) (S (len s)) (cap s))
  else (h ++ [view h s ++ Some x :: replicate (spare (S (len s))) None],
        mkSlice (length h) 0 (S (len s)) (S (len s) + spare (S (len s)))).

(** [r[t]] *)
Definition index_mem (m : Mem) (t : Transition) : Slice :=
  default nil_slice (table m !! t).

(** [func (r RuleSet) AddRule(t Transition, guards ...Guard)] on
    memory: one [r[t] = append(r[t], guard)] per guard. *)
Definition AddRule_mem (m : Mem) (t : Transition) (guards : list (Guard Subj)) : Mem :=
  foldl (fun m guard =>
           let (h, s) := append (heap m) (index_mem m t) guard in
           mkMem h (<[t := s]> (table m)))
        m guards.

(** [func (r RuleSet) AddTransition(t Transition)] on memory. *)
Definition AddTransition_mem (m : Mem) (t : Transition) : Mem :=
  AddRule_mem m t [default_guard t].

(** [guards, ok := r[k]]: the guard list registered under [k]. *)
Definition guards_at (m : Mem) (k : Transition) : option (list (option (Guard Subj))) :=
  view (heap m) <$> table m !! k.

(** The rule set a memory holds, as a map to lists of functions (a
    nil entry, which only a hand-written list can hold, is left out). *)
Definition abs (m : Mem) : gmap Transition (list (Guard Subj)) :=
  (fun s => omap id (view (heap m) s)) <$> table m.

(** A slice is a window of an allocated array, as every slice is. *)
Definition slice_ok (h : list (list (option (Guard Subj)))) (s : Slice) : Prop :=
  (len s <= cap s)%nat /\
  ((0 < cap s)%nat ->
     exists a, h !! arr s = Some a /\ (off s + cap s <= length a)%nat).

(** No two keys share a backing array. *)
Definition separate (m : Mem) : Prop :=
  (forall k s, table m !! k = Some s -> slice_ok (heap m) s) /\
  (forall k1 k2 s1 s2,
     k1 <> k2 -> table m !! k1 = Some s1 -> table m !! k2 = Some s2 ->
     (0 < cap s1)%nat -> (0 < cap s2)%nat -> arr s1 <> arr s2).

(** The memories a caller reaches through the package's functions
    alone. *)
Inductive built_mem : Mem -> Prop :=
  | built_mem_empty : built_mem Mem_empty
  | built_mem_AddRule m t guards : built_mem m -> built_mem (AddRule_mem m t guards)
  | built_mem_AddTransition m t : built_mem m -> built_mem (AddTransition_mem m t).

End Memory.

(** A hand-written rule set whose two keys hold the same slice: three
    guards in an array of four cells ([all := make([]Guard, 3, 4)];
    [RuleSet{T{Idle, Running}: all, T{Running, Idle}: all}]). *)
Definition shared_mem : @Mem Thing :=
  mkMem [[Some (always true); Some (always true); Some (always true); None]]
        {[ IfaceT (mkT StateIdle StateRunning) := mkSlice 0 0 3 4;
           IfaceT (mkT StateRunning StateIdle) := mkSlice 0 0 3 4 ]}.

(** A growth policy: as much spare room as elements. *)
Definition doubling (n : nat) : nat := n.

(** ** Facts about the rule set *)
Section PackageFacts.

Context {Subj : Type} {Stater_Subj : Stater Subj}.

Local Abbreviation RuleSet := (gmap Transition (list (Guard Subj))).

Implicit Types (r : RuleSet) (t k : Transition) (guards : list (Guard Subj)).
Implicit Types (w : @World Subj) (goal : State).

Lemma receive_forallb (outcomes : list bool) :
  receive outcomes = forallb id outcomes.
Proof.
  induction outcomes as [|o rest IH]; [reflexivity|].
  destruct o; simpl; [exact IH | reflexivity].
Qed.

Lemma receive_true (outcomes : list bool) :
  receive outcomes = true <-> Forall (fun o => o = true) outcomes.
Proof.
  induction outcomes as [|o rest IH]; simpl.
  - split; [constructor | reflexivity].
  - rewrite Forall_cons. destruct o; simpl; [tauto|].
    split; [discriminate | intros [? _]; discriminate].
Qed.

(** [Permitted] as one expression: it reads the world and leaves it as
    it was. *)
Lemma Permitted_eq w goal :
  Permitted goal w =
  (match Rules w !! attempt_key w goal with
   | Some guards => receive (map (fun g => g (Subject w) goal) guards)
   | None => false
   end, w).
Proof.
  unfold Permitted, bind, call_CurrentState, lookup_rule, launch, ret, attempt_key.
  destruct (Rules w !! _); reflexivity.
Qed.

Lemma Permitted_present w goal guards :
  Rules w !! attempt_key w goal = Some guards ->
  (Permitted goal w).1 = receive (map (fun g => g (Subject w) goal) guards).
Proof. intros Hk. rewrite Permitted_eq, Hk. reflexivity. Qed.

Lemma Permitted_absent w goal :
  Rules w !! attempt_key w goal = None -> (Permitted goal w).1 = false.
Proof. intros Hk. rewrite Permitted_eq, Hk. reflexivity. Qed.

Lemma Permitted_world w goal : (Permitted goal w).2 = w.
Proof. rewrite Permitted_eq. reflexivity. Qed.

Lemma Machine_Transition_eq w goal :
  Machine_Transition goal w =
  if (Permitted goal w).1
  then (None, {| Rules := Rules w;
                 Subject := SetState (Subject w) goal;
                 SetStateCalls := SetStateCalls w ++ [goal] |})
  else (Some ErrInvalidTransition, w).
Proof.
  unfold Machine_Transition, bind. rewrite Permitted_eq. simpl.
  destruct (match Rules w !! _ with Some _ => _ | None => _ end); reflexivity.
Qed.

(** *** [AddRule] *)

Lemma AddRule_nil r t : AddRule r t [] = r.
Proof. reflexivity. Qed.

Lemma AddRule_cons r t g guards :
  AddRule r t (g :: guards) = AddRule (<[t := index r t ++ [g]]> r) t guards.
Proof. reflexivity. Qed.

Lemma AddRule_other r t guards k : k <> t -> AddRule r t guards !! k = r !! k.
Proof.
  intros Hne. revert r.
  induction guards as [|g guards IH]; intros r; [reflexivity|].
  rewrite AddRule_cons, IH. apply lookup_insert_ne. congruence.
Qed.

Lemma AddRule_same r t guards :
  guards <> [] -> AddRule r t guards !! t = Some (index r t ++ guards).
Proof.
  revert r. induction guards as [|g guards IH]; intros r Hne; [congruence|].
  rewrite AddRule_cons. destruct guards as [|g' guards].
  - rewrite AddRule_nil. apply lookup_insert_eq.
  - rewrite IH by discriminate. unfold index at 1.
    rewrite lookup_insert_eq. simpl. rewrite <- app_assoc. reflexivity.
Qed.

Lemma AddRule_index r t guards :
  index (AddRule r t guards) t = index r t ++ guards.
Proof.
  destruct guards as [|g guards].
  - rewrite AddRule_nil, app_nil_r. reflexivity.
  - unfold index at 1. rewrite AddRule_same by discriminate. reflexivity.
Qed.

(** A key that was present stays present, with its old guards first. *)
Lemma AddRule_keeps r t guards k gs :
  r !! k = Some gs ->
  AddRule r t guards !! k = Some (gs ++ if decide (k = t) then guards else []).
Proof.
  intros Hk. destruct (decide (k = t)) as [->|Hne].
  - destruct guards as [|g guards].
    + rewrite AddRule_nil, app_nil_r. exact Hk.
    + rewrite AddRule_same by discriminate. unfold index. rewrite Hk. reflexivity.
  - rewrite AddRule_other by exact Hne. rewrite app_nil_r. exact Hk.
Qed.

(** *** [CreateRuleSet] *)

Lemma CreateRuleSet_loop_foldl r (transitions : list Transition) :
  CreateRuleSet_loop r transitions = foldl AddTransition r transitions.
Proof.
  revert r. induction transitions as [|t rest IH]; intros r; [reflexivity|].
  simpl. apply IH.
Qed.

Lemma CreateRuleSet_snoc (transitions : list Transition) t :
  CreateRuleSet (transitions ++ [t]) = AddTransition (CreateRuleSet transitions) t.
Proof.
  unfold CreateRuleSet. rewrite !CreateRuleSet_loop_foldl, foldl_app. reflexivity.
Qed.

Lemma filter_absent (transitions : list Transition) k :
  k ∉ transitions -> filter (fun t => t = k) transitions = [].
Proof.
  induction transitions as [|t rest IH]; intros Hnin; [reflexivity|].
  apply not_elem_of_cons in Hnin as [Hne Hrest].
  rewrite filter_cons_False by congruence. apply IH, Hrest.
Qed.

(** Under key [k] a rule set made by [CreateRuleSet] holds one default
    guard per occurrence of [k] in the argument list, and nothing when
    [k] does not occur. *)
Lemma CreateRuleSet_lookup (transitions : list Transition) k :
  CreateRuleSet transitions !! k =
  if decide (k ∈ transitions)
  then Some (replicate (length (filter (fun t => t = k) transitions)) (default_guard k))
  else None.
Proof.
  induction transitions as [|t rest IH] using rev_ind.
  - unfold CreateRuleSet. simpl. rewrite lookup_empty.
    destruct (decide (k ∈ [])) as [Hin|_]; [inversion Hin | reflexivity].
  - rewrite CreateRuleSet_snoc. unfold AddTransition.
    rewrite filter_app, length_app.
    destruct (decide (k = t)) as [->|Hne].
    + assert (t ∈ rest ++ [t]) as Hlast
        by (apply elem_of_app; right; apply list_elem_of_singleton; reflexivity).
      rewrite (decide_True _ _ Hlast).
      rewrite AddRule_same by discriminate. unfold index. rewrite IH.
      rewrite filter_cons_True by reflexivity. simpl.
      destruct (decide (t ∈ rest)) as [Hin|Hnin]; simpl.
      * rewrite <- replicate_S_end, Nat.add_1_r. reflexivity.
      * rewrite (filter_absent rest t Hnin). reflexivity.
    + rewrite AddRule_other by exact Hne. rewrite IH.
      rewrite filter_cons_False by congruence. simpl. rewrite Nat.add_0_r.
      destruct (decide (k ∈ rest)) as [Hin|Hnin].
      * assert (k ∈ rest ++ [t]) as Hin' by (apply elem_of_app; left; exact Hin).
        rewrite (decide_True _ _ Hin'). reflexivity.
      * assert (k ∉ rest ++ [t]) as Hnin'
          by (rewrite elem_of_app, list_elem_of_singleton; tauto).
        rewrite (decide_False _ _ Hnin'). reflexivity.
Qed.

End PackageFacts.

(** ** The machine and the rule set: the specified behaviour *)
Section Claims.

Context {Subj : Type} {Stater_Subj : Stater Subj}.

Local Abbreviation RuleSet := (gmap Transition (list (Guard Subj))).

Implicit Types (r : RuleSet) (t k : Transition) (guards : list (Guard Subj)).
Implicit Types (w : @World Subj) (goal : State).

(** C1. [Machine.Transition(goal)] calls [Subject.SetState(goal)] and
    returns [nil] exactly when [Rules.Permitted(Subject, goal)] is true:
    the call log grows by [goal], the subject becomes the result of
    [SetState], and the rule set stays.  Exactly when [Permitted] is
    false it returns [ErrInvalidTransition] and the world (subject,
    call log, rule set) is as before. *)
Theorem Machine_Transition_iff_Permitted w goal :
  ((Machine_Transition goal w).1 = None /\
   SetStateCalls (Machine_Transition goal w).2 = SetStateCalls w ++ [goal]
   <-> (Permitted goal w).1 = true) /\
  ((Permitted goal w).1 = true ->
   Machine_Transition goal w =
     (None, {| Rules := Rules w;
               Subject := SetState (Subject w) goal;
               SetStateCalls := SetStateCalls w ++ [goal] |})) /\
  ((Permitted goal w).1 = false <->
   Machine_Transition goal w = (Some ErrInvalidTransition, w)).
Proof.
  rewrite Machine_Transition_eq.
  destruct (Permitted goal w).1 eqn:Hok; simpl.
  - repeat split; auto; discriminate.
  - repeat split; try discriminate; auto.
    intros [Hnil _]. discriminate.
Qed.

(** C2. With no rule under the key (subject's current state, goal),
    [Permitted] is false, whatever the rule set holds elsewhere. *)
Theorem Permitted_no_rule_denied w goal :
  Rules w !! IfaceT (mkT (CurrentState (Subject w)) goal) = None ->
  (Permitted goal w).1 = false.
Proof. apply Permitted_absent. Qed.

(** C3. With guard list [guards] under the key (subject's current
    state, goal), [Permitted] is true exactly when every guard of the
    list is true of (subject, goal), for an empty list too.  For the
    list [g1; g2] with [g1] constantly true: false when [g2] is
    constantly false, true when [g2] is constantly true. *)
Theorem Permitted_iff_all_guards w goal :
  (forall guards,
     Rules w !! IfaceT (mkT (CurrentState (Subject w)) goal) = Some guards ->
     ((Permitted goal w).1 = true <->
      forall g, g ∈ guards -> g (Subject w) goal = true)) /\
  (forall g1 g2 : Guard Subj,
     (forall s x, g1 s x = true) ->
     Rules w !! IfaceT (mkT (CurrentState (Subject w)) goal) = Some [g1; g2] ->
     ((forall s x, g2 s x = false) -> (Permitted goal w).1 = false) /\
     ((forall s x, g2 s x = true) -> (Permitted goal w).1 = true)).
Proof.
  split.
  - intros guards Hk. rewrite (Permitted_present _ _ _ Hk), receive_true.
    rewrite Forall_fmap, Forall_forall. reflexivity.
  - intros g1 g2 H1 Hk. rewrite (Permitted_present _ _ _ Hk). simpl.
    rewrite H1. simpl. split; intros H2; rewrite H2; reflexivity.
Qed.

(** C4, amended.  Each [AddTransition(t)] attaches exactly one guard
    for [t], at the end of [t]'s list, and that guard is "the subject's
    current state equals [t.Origin()]".  For a rule set built only from
    [AddTransition] calls, [Permitted(subject, goal)] is true exactly
    when a registered transition whose dynamic type is the package's
    struct [T] has [Origin] equal to the subject's current state and
    [Exit] equal to [goal]; a registered transition of another type
    never makes [Permitted] true. *)
Theorem AddTransition_default_guard :
  (forall r t, AddTransition r t !! t = Some (index r t ++ [default_guard t])) /\
  (forall t (s : Subj) goal,
     default_guard t s goal = true <-> CurrentState s = Origin t) /\
  (forall (transitions : list Transition) w goal,
     Rules w = CreateRuleSet transitions ->
     ((Permitted goal w).1 = true <->
      exists t : T, IfaceT t ∈ transitions /\
                    O t = CurrentState (Subject w) /\ E t = goal)).
Proof.
  split; [|split].
  - intros r t. unfold AddTransition. apply AddRule_same. discriminate.
  - intros t s goal. unfold default_guard. apply Z.eqb_eq.
  - intros transitions w goal Hr. rewrite Permitted_eq, Hr, CreateRuleSet_lookup.
    unfold attempt_key. simpl.
    destruct (decide (_ ∈ transitions)) as [Hin|Hnin]; simpl.
    + split.
      * intros _. eexists. split; [exact Hin|]. split; reflexivity.
      * intros _. apply receive_true, Forall_fmap, Forall_forall.
        intros g Hg. apply elem_of_replicate in Hg as [-> _].
        unfold default_guard. simpl. apply Z.eqb_refl.
    + split; [discriminate|].
      intros [[o e] (Hin & Ho & He)]. simpl in Ho, He. subst o e. contradiction.
Qed.

(** C5, amended.  [AddRule] with zero guards leaves the rule set as it
    was: a transition that was absent is still absent, and a
    [Permitted] call that looks it up returns false, as before the
    call.  An entry with an empty guard list, wherever it comes from,
    makes [Permitted] return true (the conjunction over no guards). *)
Theorem AddRule_zero_guards :
  (forall r t, AddRule r t [] = r) /\
  (forall w goal,
     Rules w !! IfaceT (mkT (CurrentState (Subject w)) goal) = None ->
     (Permitted goal
        {| Rules := AddRule (Rules w) (mkT (CurrentState (Subject w)) goal) [];
           Subject := Subject w;
           SetStateCalls := SetStateCalls w |}).1 = false) /\
  (forall w goal,
     Rules w !! IfaceT (mkT (CurrentState (Subject w)) goal) = Some [] ->
     (Permitted goal w).1 = true).
Proof.
  split; [|split].
  - intros r t. apply AddRule_nil.
  - intros w goal Hk. apply Permitted_absent. exact Hk.
  - intros w goal Hk. rewrite (Permitted_present _ _ _ Hk). reflexivity.
Qed.


(** C7. [CreateRuleSet(t1, ..., tn)] is the rule set obtained from an
    empty one by [AddTransition(t1); ...; AddTransition(tn)]: the two
    maps are equal, so [Permitted] answers the same on both for every
    subject and goal. *)
Theorem CreateRuleSet_manual (transitions : list Transition) :
  CreateRuleSet transitions = manual_AddTransitions transitions /\
  (forall (s : Subj) (calls : list State) goal,
     (Permitted goal (mkWorld (CreateRuleSet transitions) s calls)).1 =
     (Permitted goal (mkWorld (manual_AddTransitions transitions) s calls)).1).
Proof.
  assert (CreateRuleSet transitions = manual_AddTransitions transitions) as Heq
    by apply CreateRuleSet_loop_foldl.
  split; [exact Heq|]. intros s calls goal. rewrite Heq. reflexivity.
Qed.

(** C10. [Permitted] leaves the world as it found it: no [SetState]
    call is logged, the subject is the same and the rule set is the
    same.  [Machine.Transition] never changes the rule set, and it
    either leaves the world as it found it or, on a permitted attempt,
    makes exactly one call [SetState(goal)]. *)
Theorem Permitted_Transition_frame w goal :
  (Permitted goal w).2 = w /\
  Rules (Machine_Transition goal w).2 = Rules w /\
  ((Machine_Transition goal w).2 = w \/
   (Permitted goal w).1 = true /\
   (Machine_Transition goal w).2 =
     {| Rules := Rules w;
        Subject := SetState (Subject w) goal;
        SetStateCalls := SetStateCalls w ++ [goal] |}).
Proof.
  split; [apply Permitted_world|].
  rewrite Machine_Transition_eq.
  destruct (Permitted goal w).1; simpl; auto.
Qed.

End Claims.

(** ** Every interleaving of the goroutines *)
Section SchedFacts.

Import Sched.

Context {Subj : Type}.
Variables (subject : Subj) (goal : State).

Local Abbreviation Task := (@Task Subj).
Local Abbreviation Config := (@Config Subj).
Local Abbreviation step := (@step Subj subject goal).
Local Abbreviation Inv := (@Inv Subj subject goal).

Implicit Types (ts : list Task) (c : Config) (guards : list (Guard Subj)).

(** *** Counting and fuel under an update of one task *)

Lemma exited_insert_new ts i t t' :
  ts !! i = Some t -> is_exited t = false -> is_exited t' = true ->
  exited (<[i := t']> ts) = S (exited ts).
Proof.
  revert i. induction ts as [|x ts IH]; intros [|i] Hi Hold Hnew; try discriminate.
  - simpl in Hi. injection Hi as ->. simpl. rewrite Hold, Hnew. reflexivity.
  - simpl in Hi |- *. rewrite (IH i Hi Hold Hnew). lia.
Qed.

Lemma exited_insert_same ts i t t' :
  ts !! i = Some t -> is_exited t = is_exited t' ->
  exited (<[i := t']> ts) = exited ts.
Proof.
  revert i. induction ts as [|x ts IH]; intros [|i] Hi Hsame; try discriminate.
  - simpl in Hi. injection Hi as ->. simpl. rewrite Hsame. reflexivity.
  - simpl in Hi |- *. rewrite (IH i Hi Hsame). reflexivity.
Qed.

Lemma exited_none ts :
  Forall (fun t => is_exited t = false) ts -> exited ts = 0%nat.
Proof.
  induction 1 as [|t ts Ht _ IH]; [reflexivity|].
  simpl. rewrite Ht, IH. reflexivity.
Qed.

Lemma exited_le ts : (exited ts <= length ts)%nat.
Proof.
  induction ts as [|t ts IH]; simpl; [lia|]. destruct (is_exited t); lia.
Qed.

Lemma exited_all ts :
  exited ts = length ts -> Forall (fun t => is_exited t = true) ts.
Proof.
  induction ts as [|t ts IH]; simpl; intros Hlen; [constructor|].
  pose proof (exited_le ts) as Hle.
  destruct (is_exited t) eqn:Ht; [|lia].
  constructor; [exact Ht | apply IH; lia].
Qed.

Lemma exited_some_left ts :
  (exited ts < length ts)%nat -> exists i t, ts !! i = Some t /\ is_exited t = false.
Proof.
  induction ts as [|t ts IH]; simpl; intros Hlt; [lia|].
  destruct (is_exited t) eqn:Ht.
  - destruct IH as (i & t' & Hi & Ht'); [lia|]. exists (S i), t'. auto.
  - exists 0%nat, t. auto.
Qed.

Lemma tasks_fuel_insert ts i t t' :
  ts !! i = Some t ->
  (tasks_fuel (<[i := t']> ts) + phase_fuel (phase t)
   = tasks_fuel ts + phase_fuel (phase t'))%nat.
Proof.
  revert i. induction ts as [|x ts IH]; intros [|i] Hi; try discriminate.
  - simpl in Hi. injection Hi as ->. simpl. lia.
  - simpl in Hi |- *. specialize (IH i Hi). lia.
Qed.

Lemma guards_insert ts i g p p' :
  ts !! i = Some (mkTask g p) ->
  map guard (<[i := mkTask g p']> ts) = map guard ts.
Proof.
  revert i. induction ts as [|x ts IH]; intros [|i] Hi; try discriminate.
  - simpl in Hi. injection Hi as ->. reflexivity.
  - simpl in Hi |- *. rewrite (IH i Hi). reflexivity.
Qed.

(** *** Every step uses fuel: all runs are finite *)

Lemma step_fuel c c' : step c c' -> (fuel c' < fuel c)%nat.
Proof.
  unfold fuel. intros Hstep.
  destruct Hstep as [k ts g Hk | k ts Hk | cl ts i g Hi | n ts i g o Hi | ts]; simpl.
  - pose proof (tasks_fuel_insert ts k _ (mkTask g Running) Hk) as Hf.
    simpl in Hf. lia.
  - lia.
  - pose proof (tasks_fuel_insert ts i _ (mkTask g (Sending (g subject goal))) Hi) as Hf.
    simpl in Hf. lia.
  - pose proof (tasks_fuel_insert ts i _ (mkTask g Exited) Hi) as Hf.
    simpl in Hf. destruct o; simpl; lia.
  - lia.
Qed.

Lemma step_terminates c : sn step c.
Proof.
  apply (well_founded_lt_compat Config fuel (flip step)).
  intros x y Hxy. apply step_fuel. exact Hxy.
Qed.

(** *** The invariant *)

Lemma Inv_init guards : Inv guards (init guards).
Proof.
  split; simpl.
  - rewrite map_map. simpl. apply map_id.
  - apply Forall_forall. intros t Ht o Ho.
    apply list_elem_of_In, in_map_iff in Ht as (g & <- & _). discriminate.
  - split; [lia|]. intros i t Hi.
    apply list_elem_of_lookup_2, list_elem_of_In, in_map_iff in Hi as (g & <- & _).
    reflexivity.
Qed.

Lemma Inv_step guards c c' : Inv guards c -> step c c' -> Inv guards c'.
Proof.
  intros [Hg Hs Hc] Hstep.
  destruct Hstep as [k ts g Hk | k ts Hk | cl ts i g Hi | n ts i g o Hi | ts];
    simpl in *.
  - (* go *)
    split; simpl.
    + rewrite (guards_insert _ _ _ _ _ Hk). exact Hg.
    + apply Forall_insert; [exact Hs | discriminate].
    + destruct Hc as [Hle Hc]. split.
      { rewrite length_insert. apply lookup_lt_Some in Hk. lia. }
      intros j t Hj. apply list_lookup_insert_Some in Hj as [(-> & <- & _)|[Hne Hj]].
      * rewrite decide_True by lia. left. reflexivity.
      * specialize (Hc j t Hj). simpl in Hc.
        destruct (decide (j < k)%nat).
        -- rewrite decide_True by lia. exact Hc.
        -- rewrite decide_False by lia. exact Hc.
  - (* all launched *)
    subst k. destruct Hc as [_ Hc]. split; simpl; [exact Hg | exact Hs |].
    assert (Forall (fun t => phase t = Running \/
                             phase t = Sending (guard t subject goal)) ts) as Hlive.
    { apply Forall_lookup. intros i t Hi. specialize (Hc i t Hi).
      rewrite decide_True in Hc by (eapply lookup_lt_Some; exact Hi). exact Hc. }
    split; [|split].
    + rewrite exited_none; [reflexivity|].
      eapply Forall_impl; [exact Hlive|]. unfold is_exited.
      intros t [-> | ->]; reflexivity.
    + eapply Forall_impl; [exact Hlive|]. unfold is_waiting.
      intros t [-> | ->]; reflexivity.
    + eapply Forall_impl; [exact Hlive|]. unfold is_exited.
      intros t [-> | ->]; discriminate.
  - (* a guard returns *)
    split; simpl.
    + rewrite (guards_insert _ _ _ _ _ Hi). exact Hg.
    + apply Forall_insert; [exact Hs|]. simpl. intros o Ho. congruence.
    + destruct cl as [k | n | [|]]; simpl in *.
      * destruct Hc as [Hle Hc]. split; [rewrite length_insert; exact Hle|].
        intros j t Hj. apply list_lookup_insert_Some in Hj as [(-> & <- & _)|[Hne Hj]].
        -- specialize (Hc _ _ Hi). simpl in Hc.
           destruct (decide (j < k)%nat); [right; reflexivity | discriminate].
        -- exact (Hc j t Hj).
      * destruct Hc as (Hn & Hw & He). split; [|split].
        -- rewrite length_insert, (exited_insert_same _ _ _ _ Hi); [exact Hn | reflexivity].
        -- apply Forall_insert; [exact Hw | reflexivity].
        -- apply Forall_insert; [exact He | discriminate].
      * exfalso. eapply Forall_lookup_1 in Hc as [Hp _]; [|exact Hi]. discriminate.
      * destruct Hc as [Hw He]. split.
        -- apply Forall_insert; [exact Hw | reflexivity].
        -- apply Exists_exists in He as (t & Ht & Hp & Hf).
           apply list_elem_of_lookup in Ht as [j Hj].
           apply Exists_exists. exists t. split; [|auto].
           apply list_elem_of_lookup. exists j.
           rewrite list_lookup_insert_ne; [exact Hj|].
           intros ->. rewrite Hi in Hj. injection Hj as <-. discriminate.
  - (* a receive *)
    destruct Hc as (Hn & Hw & He).
    assert (o = g subject goal) as Ho
      by exact (Forall_lookup_1 _ _ _ _ Hs Hi o eq_refl).
    split; simpl.
    + rewrite (guards_insert _ _ _ _ _ Hi). exact Hg.
    + apply Forall_insert; [exact Hs | discriminate].
    + destruct o; simpl.
      * split; [|split].
        -- rewrite length_insert,
             (exited_insert_new _ _ _ _ Hi) by reflexivity. lia.
        -- apply Forall_insert; [exact Hw | reflexivity].
        -- apply Forall_insert; [exact He|]. simpl. intros _. congruence.
      * split.
        -- apply Forall_insert; [exact Hw | reflexivity].
        -- apply Exists_exists. exists (mkTask g Exited). split.
           ++ apply list_elem_of_lookup. exists i.
              apply list_lookup_insert_eq. eapply lookup_lt_Some. exact Hi.
           ++ simpl. split; [reflexivity | congruence].
  - (* return true *)
    destruct Hc as (Hn & Hw & He).
    split; simpl; [exact Hg | exact Hs |].
    rewrite Nat.add_0_r in Hn. apply exited_all in Hn.
    apply Forall_forall. intros t Ht.
    eapply Forall_forall in Hn; [|exact Ht].
    eapply Forall_forall in He; [|exact Ht].
    split; [|exact (He Hn)].
    unfold is_exited in Hn. destruct (phase t); try discriminate. reflexivity.
Qed.

Lemma Inv_reachable guards c : rtc step (init guards) c -> Inv guards c.
Proof.
  revert c. apply rtc_ind_r.
  - apply Inv_init.
  - intros y z _ Hyz IH. eapply Inv_step; [exact IH | exact Hyz].
Qed.

(** *** What a run returns *)

(** Whatever the interleaving, the value returned is the one the
    function [receive] computes on the outcomes in launch order. *)
Lemma returned_value guards c b :
  rtc step (init guards) c -> caller c = Returned b ->
  b = receive (map (fun g => g subject goal) guards).
Proof.
  intros Hrun Hb. apply Inv_reachable in Hrun as [Hg _ Hc].
  rewrite Hb in Hc. rewrite <- Hg, map_map. destruct b; simpl in Hc; symmetry.
  - apply receive_true, Forall_fmap. eapply Forall_impl; [exact Hc|].
    intros t [_ Ht]. exact Ht.
  - destruct Hc as [_ He]. apply not_true_is_false. intros Hall.
    apply receive_true, Forall_fmap in Hall.
    apply Exists_exists in He as (t & Ht & _ & Hf).
    eapply Forall_forall in Hall; [|exact Ht]. simpl in Hall. congruence.
Qed.

Lemma returned_stays c c' b :
  step c c' -> caller c = Returned b -> caller c' = Returned b.
Proof. intros Hstep. destruct Hstep; simpl; auto; discriminate. Qed.

Lemma returned_stays_rtc c c' b :
  rtc step c c' -> caller c = Returned b -> caller c' = Returned b.
Proof. induction 1; eauto using returned_stays. Qed.

(** *** A running guard is never stopped *)

Lemma running_step c c' i g :
  step c c' -> tasks c !! i = Some (mkTask g Running) ->
  tasks c' !! i = Some (mkTask g Running) \/
  tasks c' !! i = Some (mkTask g (Sending (g subject goal))).
Proof.
  intros Hstep Hi.
  destruct Hstep as [k ts g' Hk | k ts Hk | cl ts j g' Hj | n ts j g' o Hj | ts];
    simpl in *; auto.
  - left. rewrite list_lookup_insert_ne; [exact Hi|]. intros ->. congruence.
  - destruct (decide (j = i)) as [->|Hne].
    + right. rewrite Hj in Hi. injection Hi as ->.
      apply list_lookup_insert_eq. eapply lookup_lt_Some. exact Hj.
    + left. rewrite list_lookup_insert_ne by exact Hne. exact Hi.
  - left. rewrite list_lookup_insert_ne; [exact Hi|]. intros ->. congruence.
Qed.

Lemma sending_step c c' i g o :
  step c c' -> caller c = Returned false ->
  tasks c !! i = Some (mkTask g (Sending o)) ->
  tasks c' !! i = Some (mkTask g (Sending o)).
Proof.
  intros Hstep Hcl Hi.
  destruct Hstep as [k ts g' Hk | k ts Hk | cl ts j g' Hj | n ts j g' o' Hj | ts];
    simpl in *; try discriminate.
  rewrite list_lookup_insert_ne; [exact Hi|]. intros ->. congruence.
Qed.

Lemma running_rtc c c' i g :
  rtc step c c' -> caller c = Returned false ->
  tasks c !! i = Some (mkTask g Running) ->
  tasks c' !! i = Some (mkTask g Running) \/
  tasks c' !! i = Some (mkTask g (Sending (g subject goal))).
Proof.
  intros Hrun Hcl Hi. revert c' Hrun. apply rtc_ind_r; [auto|].
  intros y z Hxy Hyz IH.
  pose proof (returned_stays_rtc _ _ _ Hxy Hcl) as Hcl'.
  destruct IH as [Hr|Hs].
  - eapply running_step; [exact Hyz | exact Hr].
  - right. eapply sending_step; [exact Hyz | exact Hcl' | exact Hs].
Qed.

(** *** Progress *)

Lemma find_running ts :
  Forall (fun t => is_running t = false) ts \/
  exists i g, ts !! i = Some (mkTask g Running).
Proof.
  induction ts as [|[g p] ts [IH|(i & g' & Hi)]].
  - left. constructor.
  - destruct p; try (left; constructor; [reflexivity | exact IH]).
    right. exists 0%nat, g. reflexivity.
  - right. exists (S i), g'. exact Hi.
Qed.

(** A reachable configuration can take a step, or else [Permitted] has
    returned and every guard's call has returned. *)
Lemma progress guards c :
  Inv guards c ->
  (exists c', step c c') \/
  ((exists b, caller c = Returned b) /\ Forall (fun t => evaluated t = true) (tasks c)).
Proof.
  intros [Hg Hs Hc]. destruct c as [cl ts]. simpl in *.
  destruct (find_running ts) as [Hnorun|(i & g & Hi)].
  2:{ left. eexists. apply step_eval. exact Hi. }
  destruct cl as [k | [|n] | b]; simpl in Hc.
  - destruct Hc as [Hle Hc]. left.
    destruct (ts !! k) as [[g p]|] eqn:Hk.
    + specialize (Hc _ _ Hk). rewrite decide_False in Hc by lia. simpl in Hc. subst p.
      eexists. apply step_go. exact Hk.
    + apply lookup_ge_None in Hk. eexists. apply step_launched. lia.
  - left. eexists. apply step_return.
  - left. destruct Hc as (Hn & Hw & _).
    destruct (exited_some_left ts) as (i & [g p] & Hi & Hp); [lia|].
    eapply Forall_lookup_1 in Hw as Hwi; [|exact Hi].
    eapply Forall_lookup_1 in Hnorun as Hri; [|exact Hi].
    destruct p; try discriminate.
    eexists. eapply step_recv. exact Hi.
  - right. split; [eauto|].
    assert (Forall (fun t => is_waiting t = false) ts) as Hw.
    { destruct b; [|exact (proj1 Hc)].
      eapply Forall_impl; [exact Hc|]. unfold is_waiting. intros t [-> _]. reflexivity. }
    apply Forall_forall. intros t Ht.
    eapply Forall_forall in Hw; [|exact Ht].
    eapply Forall_forall in Hnorun; [|exact Ht].
    unfold is_waiting, is_running, evaluated in *. destruct (phase t); congruence.
Qed.

(** Every reachable configuration extends to one where nothing is left
    to do: [Permitted] has returned and all guards have been evaluated. *)
Lemma runs_complete guards c :
  Inv guards c ->
  exists c', rtc step c c' /\ nf step c' /\
             (exists b, caller c' = Returned b) /\
             Forall (fun t => evaluated t = true) (tasks c').
Proof.
  induction (step_terminates c) as [c _ IH]. intros Hinv.
  destruct (progress guards c Hinv) as [[c1 Hstep]|[Hret Hev]].
  - destruct (IH c1 Hstep (Inv_step _ _ _ Hinv Hstep)) as (c' & Hrun & Hrest).
    exists c'. split; [|exact Hrest]. eapply rtc_l; [exact Hstep | exact Hrun].
  - exists c. split; [reflexivity|]. split; [|auto].
    intros [c1 Hstep]. destruct Hret as [b Hb].
    destruct Hstep as [k ts g Hk | k ts Hk | cl ts i g Hi | n ts i g o Hi | ts];
      simpl in *; try discriminate.
    eapply Forall_lookup_1 in Hev; [|exact Hi]. discriminate.
Qed.

(** A configuration with nothing left to do has returned, with every
    guard evaluated. *)
Lemma final_evaluated guards c :
  Inv guards c -> nf step c ->
  (exists b, caller c = Returned b) /\ Forall (fun t => evaluated t = true) (tasks c).
Proof.
  intros Hinv Hnf. destruct (progress guards c Hinv) as [Hred|Hdone]; [|exact Hdone].
  contradiction.
Qed.

Lemma Inv_rtc guards c c' : Inv guards c -> rtc step c c' -> Inv guards c'.
Proof. intros Hinv Hrun. induction Hrun; eauto using Inv_step. Qed.

(** C9. In every interleaving of [Permitted]'s goroutines: when
    [Permitted] has returned true, the goroutines are those of the
    registered guards, one each and in order, every one of them has
    delivered its result and exited, and every registered guard is
    true of the subject and the goal; when
    it has returned false, every goroutine it launched is still there,
    a guard still inside its call can take its step, in whatever
    happens afterwards such a guard is either still running or has
    run to completion with its result, every continuation is finite,
    and once nothing is left to do every guard's call has returned. *)
Theorem Permitted_guards_not_cancelled guards c :
  rtc step (init guards) c ->
  (caller c = Returned true ->
     map guard (tasks c) = guards /\
     Forall (fun t => phase t = Exited /\ guard t subject goal = true) (tasks c) /\
     Forall (fun g => g subject goal = true) guards) /\
  (caller c = Returned false ->
     map guard (tasks c) = guards /\
     Forall (fun t => is_waiting t = false) (tasks c) /\
     (forall i g, tasks c !! i = Some (mkTask g Running) ->
        step c (mkConfig (Returned false)
                  (<[i := mkTask g (Sending (g subject goal))]> (tasks c)))) /\
     (forall c' i g, rtc step c c' -> tasks c !! i = Some (mkTask g Running) ->
        tasks c' !! i = Some (mkTask g Running) \/
        tasks c' !! i = Some (mkTask g (Sending (g subject goal)))) /\
     sn step c /\
     (forall c', rtc step c c' -> nf step c' ->
        Forall (fun t => evaluated t = true) (tasks c')) /\
     (exists c', rtc step c c' /\ nf step c')).
Proof.
  intros Hrun. pose proof (Inv_reachable _ _ Hrun) as Hinv.
  split; intros Hcl.
  - destruct Hinv as [Hg _ Hc]. rewrite Hcl in Hc. simpl in Hc.
    split; [exact Hg|]. split; [exact Hc|].
    rewrite <- Hg. apply Forall_fmap. eapply Forall_impl; [exact Hc|].
    intros t [_ Ht]. exact Ht.
  - split; [exact (inv_guards _ _ _ _ Hinv)|].
    split; [pose proof (inv_caller _ _ _ _ Hinv) as Hc; rewrite Hcl in Hc; exact (proj1 Hc)|].
    split; [|split; [|split; [|split]]].
    + intros i g Hi. destruct c as [cl ts]. simpl in *. subst cl.
      apply step_eval. exact Hi.
    + intros c' i g Hrun' Hi. eapply running_rtc; eauto.
    + apply step_terminates.
    + intros c' Hrun' Hnf.
      exact (proj2 (final_evaluated guards c' (Inv_rtc _ _ _ Hinv Hrun') Hnf)).
    + destruct (runs_complete guards c Hinv) as (c' & Hrun' & Hnf & _).
      exists c'. auto.
Qed.

End SchedFacts.

(** ** The theorems at concrete inputs *)

(** The run that reaches [rejected_early]: both guards are launched,
    the first returns false and is received. *)
Lemma rejected_early_reachable :
  rtc (@Sched.step Thing idle_thing StateRunning)
      (Sched.init two_guards) rejected_early.
Proof.
  eapply rtc_l; [apply (Sched.step_go _ _ 0%nat _ (always false)); reflexivity|].
  eapply rtc_l; [apply (Sched.step_go _ _ 1%nat _ (always true)); reflexivity|].
  eapply rtc_l; [apply Sched.step_launched; reflexivity|].
  eapply rtc_l; [apply (Sched.step_eval _ _ _ _ 0%nat (always false)); reflexivity|].
  eapply rtc_l; [apply (Sched.step_recv _ _ _ _ 0%nat (always false) false); reflexivity|].
  exact (rtc_refl _ _).
Defined.

(** C1 at the spec's example: from Idle, the rule Idle -> Running
    permits the move, and [SetState(Running)] is called once. *)
Lemma Machine_Transition_iff_Permitted_witness :
  Machine_Transition StateRunning (fresh_world rules_T idle_thing)
  = (None, mkWorld rules_T running_thing [StateRunning]).
Proof.
  exact (proj1 (proj2 (Machine_Transition_iff_Permitted
                         (fresh_world rules_T idle_thing) StateRunning))
               eq_refl).
Defined.

(** On a subject whose [SetState] does nothing the reported state stays
    Idle, and the call log still shows the call. *)
Example Machine_Transition_logs_the_call :
  Machine_Transition StateRunning
    (mkWorld (CreateRuleSet [IfaceT idle_to_running]) (mkStuck StateIdle) [])
  = (None, mkWorld (CreateRuleSet [IfaceT idle_to_running]) (mkStuck StateIdle)
                   [StateRunning]).
Proof. reflexivity. Qed.

(** C2 at a rule set with always-true guards under other keys only. *)
Lemma Permitted_no_rule_denied_witness :
  (Permitted StateRunning (fresh_world rules_elsewhere idle_thing)).1 = false.
Proof.
  apply (Permitted_no_rule_denied (fresh_world rules_elsewhere idle_thing) StateRunning).
  vm_compute. reflexivity.
Defined.

(** C3 at the guard lists [true; false] and [true; true]. *)
Lemma Permitted_iff_all_guards_witness :
  (Permitted StateRunning
     (fresh_world {[ IfaceT idle_to_running := [always true; always false] ]}
                  idle_thing)).1 = false /\
  (Permitted StateRunning
     (fresh_world {[ IfaceT idle_to_running := [always true; always true] ]}
                  idle_thing)).1 = true.
Proof.
  split.
  - apply (proj2 (Permitted_iff_all_guards
                    (fresh_world {[ IfaceT idle_to_running := [always true; always false] ]}
                                 idle_thing) StateRunning)
                 (always true) (always false)).
    + reflexivity.
    + vm_compute. reflexivity.
    + reflexivity.
  - apply (proj2 (Permitted_iff_all_guards
                    (fresh_world {[ IfaceT idle_to_running := [always true; always true] ]}
                                 idle_thing) StateRunning)
                 (always true) (always true)).
    + reflexivity.
    + vm_compute. reflexivity.
    + reflexivity.
Defined.

(** C4 as stated fails: the transition Idle -> Running registered by
    [CreateRuleSet] as a value of the caller's type [Edge] has [Origin]
    equal to the subject's state and [Exit] equal to the goal, and
    [Permitted] is false. *)
Lemma AddTransition_other_type_denied :
  edge_idle_to_running ∈ [edge_idle_to_running] /\
  Origin edge_idle_to_running = CurrentState idle_thing /\
  Exit edge_idle_to_running = StateRunning /\
  (Permitted StateRunning (fresh_world rules_Edge idle_thing)).1 = false.
Proof.
  split; [apply list_elem_of_here|].
  split; [reflexivity|]. split; [reflexivity|].
  vm_compute. reflexivity.
Qed.

(** C4, amended, at the spec's example: with the rule Idle -> Running
    as a [T], [Permitted(subject, Running)] is true for a subject at
    Idle. *)
Lemma AddTransition_default_guard_witness :
  (Permitted StateRunning (fresh_world rules_T idle_thing)).1 = true.
Proof.
  apply (proj2 (proj2 (@AddTransition_default_guard Thing _))
               [IfaceT idle_to_running] (fresh_world rules_T idle_thing) StateRunning).
  - reflexivity.
  - exists idle_to_running. split; [apply list_elem_of_here|].
    split; reflexivity.
Defined.

(** And false for a subject at Running: the key looked up is
    (Running, Running). *)
Example Permitted_from_Running_denied :
  (Permitted StateRunning (fresh_world rules_T running_thing)).1 = false.
Proof. vm_compute. reflexivity. Qed.

(** C5 as stated fails: after [AddRule] with zero guards for the absent
    transition Idle -> Running the key is still absent, and [Permitted]
    is false. *)
Lemma AddRule_zero_guards_no_entry :
  AddRule (∅ : gmap Transition (list (Guard Thing))) idle_to_running []
    !! IfaceT idle_to_running = None /\
  (Permitted StateRunning
     (fresh_world (AddRule ∅ idle_to_running []) idle_thing)).1 = false.
Proof. split; vm_compute; reflexivity. Qed.

(** C5, amended, at the empty rule set. *)
Lemma AddRule_zero_guards_witness :
  (Permitted StateRunning
     (mkWorld (AddRule ∅ idle_to_running []) idle_thing [])).1 = false.
Proof.
  apply (proj1 (proj2 (@AddRule_zero_guards Thing _))
               (fresh_world ∅ idle_thing) StateRunning).
  reflexivity.
Defined.



(** C9 at [rejected_early]: [Permitted] has returned false and the
    second guard, still running, takes its step. *)
Lemma Permitted_guards_not_cancelled_witness :
  @Sched.step Thing idle_thing StateRunning rejected_early
    (Sched.mkConfig (Sched.Returned false)
       [Sched.mkTask (always false) Sched.Exited;
        Sched.mkTask (always true) (Sched.Sending true)]).
Proof.
  exact (proj1 (proj2 (proj2
           (proj2 (Permitted_guards_not_cancelled idle_thing StateRunning
                     two_guards rejected_early rejected_early_reachable)
                  eq_refl)))
           1%nat (always true) eq_refl).
Defined.

(** ** How registrations compose *)
Section Registration.

Context {Subj : Type} {Stater_Subj : Stater Subj}.

Local Abbreviation RuleSet := (gmap Transition (list (Guard Subj))).

Implicit Types (r : RuleSet) (t k : Transition) (guards gs : list (Guard Subj)).
Implicit Types (w : @World Subj) (goal : State).

Lemma receive_app (os1 os2 : list bool) :
  receive (os1 ++ os2) = receive os1 && receive os2.
Proof.
  induction os1 as [|o os1 IH]; [reflexivity|].
  simpl. destruct o; simpl; [exact IH | reflexivity].
Qed.

Lemma AddRule_lookup r t guards k :
  AddRule r t guards !! k =
  if decide (k = t)
  then (if guards is [] then r !! t else Some (index r t ++ guards))
  else r !! k.
Proof.
  destruct (decide (k = t)) as [->|Hne].
  - destruct guards as [|g guards]; [reflexivity|].
    apply AddRule_same. discriminate.
  - apply AddRule_other, Hne.
Qed.

(** What [Permitted] answers on a rule set made by [CreateRuleSet]:
    whether the looked-up key is among the registered transitions. *)
Lemma Permitted_CreateRuleSet (transitions : list Transition) w goal :
  Rules w = CreateRuleSet transitions ->
  (Permitted goal w).1 = bool_decide (attempt_key w goal ∈ transitions).
Proof.
  intros Hr. rewrite Permitted_eq, Hr, CreateRuleSet_lookup. simpl.
  destruct (decide (attempt_key w goal ∈ transitions)) as [Hin|Hnin].
  - rewrite bool_decide_eq_true_2 by exact Hin.
    apply receive_true, Forall_fmap, Forall_forall.
    intros g Hg. apply elem_of_replicate in Hg as [-> _].
    unfold default_guard, attempt_key. simpl. apply Z.eqb_refl.
  - rewrite bool_decide_eq_false_2 by exact Hnin. reflexivity.
Qed.

(** X1. On a rule set made by the package's functions, two [AddRule]
    calls for one transition amount to one call with the guards of the
    first followed by those of the second; calls for two different
    transitions can be made in either order. *)
Theorem AddRule_compose r :
  built r ->
  (forall t gs1 gs2,
     AddRule (AddRule r t gs1) t gs2 = AddRule r t (gs1 ++ gs2)) /\
  (forall t1 t2 gs1 gs2, t1 <> t2 ->
     AddRule (AddRule r t1 gs1) t2 gs2 = AddRule (AddRule r t2 gs2) t1 gs1).
Proof.
  intros _. split.
  - intros t gs1 gs2. unfold AddRule. rewrite foldl_app. reflexivity.
  - intros t1 t2 gs1 gs2 Hne. apply map_eq. intros k.
    rewrite !AddRule_lookup. unfold index. rewrite !AddRule_lookup.
    destruct (decide (k = t2)) as [Hk2|Hk2], (decide (k = t1)) as [Hk1|Hk1];
      try congruence; subst.
    + rewrite !decide_False by congruence. reflexivity.
    + rewrite !decide_False by congruence. reflexivity.
Qed.

(** X2. A rule set reached through [AddRule], [AddTransition] and
    [CreateRuleSet] alone never holds an empty guard list: under every
    present key there is at least one guard, so when [Permitted] answers
    true on such a rule set some guard was evaluated and returned true. *)
Theorem built_no_empty_list r :
  built r ->
  (forall k gs, r !! k = Some gs -> gs <> []) /\
  (forall (s : Subj) (calls : list State) goal,
     (Permitted goal (mkWorld r s calls)).1 = true ->
     exists g gs, r !! IfaceT (mkT (CurrentState s) goal) = Some (g :: gs) /\
                  g s goal = true).
Proof.
  intros Hb.
  assert (forall k gs, r !! k = Some gs -> gs <> []) as Hne.
  { induction Hb as [|r t guards _ IH|r t _ IH]; intros k gs.
    - rewrite lookup_empty. discriminate.
    - rewrite AddRule_lookup. destruct (decide (k = t)) as [->|_]; [|apply IH].
      destruct guards as [|g guards]; [apply IH|].
      intros [= <-] Hnil. apply app_eq_nil in Hnil as [_ Hnil]. discriminate.
    - unfold AddTransition. rewrite AddRule_lookup.
      destruct (decide (k = t)) as [->|_]; [|apply IH].
      intros [= <-] Hnil. apply app_eq_nil in Hnil as [_ Hnil]. discriminate. }
  split; [exact Hne|].
  intros s calls goal. rewrite Permitted_eq. unfold attempt_key. simpl.
  destruct (r !! IfaceT (mkT (CurrentState s) goal)) as [[|g gs]|] eqn:Hk;
    simpl; [| |discriminate].
  - exfalso. exact (Hne _ _ Hk eq_refl).
  - intros Hrecv. exists g, gs. split; [reflexivity|].
    destruct (g s goal); [reflexivity | discriminate].
Qed.

(** X3. Guards only restrict.  On a rule set made by the package's
    functions, when the looked-up key already has a rule, whatever
    [AddRule] call is made, an attempt permitted afterwards was
    permitted before: a further guard never turns a denied attempt into
    a permitted one. *)
Theorem AddRule_never_permits w goal t guards gs :
  built (Rules w) ->
  Rules w !! attempt_key w goal = Some gs ->
  (Permitted goal (with_rules w (AddRule (Rules w) t guards))).1 = true ->
  (Permitted goal w).1 = true.
Proof.
  intros _ Hk. rewrite !Permitted_eq. unfold with_rules, attempt_key in *. simpl.
  rewrite (AddRule_keeps _ t guards _ _ Hk), Hk.
  rewrite map_app, receive_app. intros Hall.
  apply andb_prop in Hall as [Hold _]. exact Hold.
Qed.

(** X4. On a rule set made by the package's functions, an [AddRule]
    call for a transition other than the one looked up changes nothing
    in the answer of [Permitted]. *)
Theorem AddRule_elsewhere w goal t guards :
  built (Rules w) ->
  t <> attempt_key w goal ->
  Permitted goal (with_rules w (AddRule (Rules w) t guards))
  = ((Permitted goal w).1, with_rules w (AddRule (Rules w) t guards)).
Proof.
  intros _ Hne. rewrite !Permitted_eq. unfold with_rules, attempt_key in *. simpl.
  rewrite AddRule_other by congruence. reflexivity.
Qed.

(** X5. [AddTransition(t)] for [t] of type [T] adds a guard that is
    true whenever it is consulted: for a subject at [t.Origin()] and
    the goal [t.Exit()], [Permitted] afterwards is true exactly when
    all guards registered for [t] before are true (always, when there
    were none). *)
Theorem AddTransition_own_attempt w goal (t : T) :
  CurrentState (Subject w) = O t -> goal = E t ->
  ((Permitted goal (with_rules w (AddTransition (Rules w) t))).1 = true <->
   forall g, g ∈ index (Rules w) t -> g (Subject w) goal = true).
Proof.
  destruct t as [o e]. simpl. intros Ho ->.
  rewrite Permitted_eq. unfold with_rules, attempt_key. simpl. rewrite Ho.
  unfold AddTransition. rewrite AddRule_same by discriminate.
  rewrite map_app, receive_app. simpl. unfold default_guard at 1. simpl.
  rewrite Ho, Z.eqb_refl. simpl. rewrite andb_true_r.
  rewrite receive_true, Forall_fmap, Forall_forall. reflexivity.
Qed.

(** X6. For rule sets made by [CreateRuleSet] only the set of
    registered transitions matters: two argument lists with the same
    members, in any order and with any repetitions, give rule sets on
    which [Permitted] agrees for every subject and goal. *)
Theorem CreateRuleSet_same_members (ts1 ts2 : list Transition) :
  (forall t, t ∈ ts1 <-> t ∈ ts2) ->
  forall (s : Subj) (calls : list State) goal,
    (Permitted goal (mkWorld (CreateRuleSet ts1) s calls)).1 =
    (Permitted goal (mkWorld (CreateRuleSet ts2) s calls)).1.
Proof.
  intros Hsame s calls goal.
  rewrite (Permitted_CreateRuleSet ts1), (Permitted_CreateRuleSet ts2) by reflexivity.
  apply bool_decide_ext, Hsame.
Qed.

End Registration.

(** ** A machine driven through several goals *)
Section Driving.

Context {Subj : Type} {Stater_Subj : Stater Subj}.

Implicit Types (w : @World Subj) (goal : State) (goals : list State).

Lemma Transition_each_cons goal goals w :
  Transition_each (goal :: goals) w =
  ((Machine_Transition goal w).1
     :: (Transition_each goals (Machine_Transition goal w).2).1,
   (Transition_each goals (Machine_Transition goal w).2).2).
Proof.
  simpl. destruct (Machine_Transition goal w) as [err w1]. simpl.
  destruct (Transition_each goals w1) as [errs w2]. reflexivity.
Qed.

Lemma Transition_each_path (transitions : list Transition) goals :
  Lawful Subj ->
  forall w, Rules w = CreateRuleSet transitions ->
    (Forall (fun err => err = None) (Transition_each goals w).1 <->
     path transitions (CurrentState (Subject w)) goals) /\
    (path transitions (CurrentState (Subject w)) goals ->
     Rules (Transition_each goals w).2 = Rules w /\
     SetStateCalls (Transition_each goals w).2 = SetStateCalls w ++ goals /\
     CurrentState (Subject (Transition_each goals w).2)
       = default (CurrentState (Subject w)) (last goals)).
Proof.
  intros Hlaw. induction goals as [|goal goals IH]; intros w Hr.
  - simpl. split; [split; auto|]. intros _. rewrite app_nil_r. auto.
  - rewrite Transition_each_cons, Machine_Transition_eq.
    rewrite (Permitted_CreateRuleSet transitions w goal Hr).
    unfold attempt_key. simpl path.
    destruct (decide (IfaceT (mkT (CurrentState (Subject w)) goal) ∈ transitions))
      as [Hin|Hnin].
    + rewrite bool_decide_eq_true_2 by exact Hin. simpl.
      set (w1 := {| Rules := Rules w; Subject := SetState (Subject w) goal;
                    SetStateCalls := SetStateCalls w ++ [goal] |}).
      destruct (IH w1 Hr) as [IHiff IHpost].
      assert (CurrentState (Subject w1) = goal) as Hcur by apply Hlaw.
      rewrite Hcur in IHiff, IHpost.
      split.
      * rewrite Forall_cons, IHiff. tauto.
      * intros [_ Hpath]. destruct (IHpost Hpath) as (HR & HC & HS).
        split; [exact HR|]. split.
        -- rewrite HC. simpl. rewrite <- app_assoc. reflexivity.
        -- rewrite HS, last_cons. destruct (last goals); reflexivity.
    + rewrite bool_decide_eq_false_2 by exact Hnin. simpl.
      split; [|tauto]. rewrite Forall_cons. split.
      * intros [Hnone _]. discriminate.
      * tauto.
Qed.

(** X7. The machine follows the registered graph.  A machine built by
    [New] on [CreateRuleSet(transitions...)] and a subject that reports
    the state it was last given is sent through [goals], one
    [Transition] call each: every call returns nil exactly when each
    goal in turn is reached by a registered [T] transition from the
    state before it; then [SetState] was called once per goal, in
    order, the subject is at the last goal and the rule set is as it
    was. *)
Theorem Machine_follows_path (transitions : list Transition) (subject : Subj) goals :
  Lawful Subj ->
  (Forall (fun err => err = None)
     (Transition_each goals (New (CreateRuleSet transitions) subject)).1 <->
   path transitions (CurrentState subject) goals) /\
  (path transitions (CurrentState subject) goals ->
   Rules (Transition_each goals (New (CreateRuleSet transitions) subject)).2
     = CreateRuleSet transitions /\
   SetStateCalls (Transition_each goals (New (CreateRuleSet transitions) subject)).2
     = goals /\
   CurrentState
     (Subject (Transition_each goals (New (CreateRuleSet transitions) subject)).2)
     = default (CurrentState subject) (last goals)).
Proof.
  intros Hlaw.
  exact (Transition_each_path transitions goals Hlaw
           (New (CreateRuleSet transitions) subject) eq_refl).
Qed.

End Driving.

(** ** Scheduling: what every run, and what some run, does *)
Section Scheduling.

Import Sched.

Context {Subj : Type} {Stater_Subj : Stater Subj}.
Variables (subject : Subj) (goal : State).

Local Abbreviation Task := (@Task Subj).
Local Abbreviation Config := (@Config Subj).
Local Abbreviation step := (@step Subj subject goal).

Implicit Types (ts : list Task) (c : Config) (guards : list (Guard Subj)).

Lemma launch_from (pre post : list (Guard Subj)) :
  rtc step
    (mkConfig (Launching (length pre))
       (map (fun g => mkTask g Running) pre ++ map (fun g => mkTask g Waiting) post))
    (mkConfig (Launching (length (pre ++ post)))
       (map (fun g => mkTask g Running) (pre ++ post))).
Proof.
  revert pre. induction post as [|g post IH]; intros pre.
  - rewrite !app_nil_r. reflexivity.
  - eapply rtc_l.
    + apply (step_go subject goal (length pre) _ g). simpl.
      apply list_lookup_middle. rewrite length_map. reflexivity.
    + rewrite insert_app_r_alt by (rewrite length_map; lia).
      rewrite length_map, Nat.sub_diag. simpl.
      specialize (IH (pre ++ [g])).
      rewrite length_app, Nat.add_1_r, map_app in IH. simpl in IH.
      rewrite <- !app_assoc in IH. exact IH.
Qed.

Lemma after_return_step c c' b :
  caller c = Returned b -> step c c' ->
  caller c' = Returned b /\
  exited (tasks c') = exited (tasks c) /\
  length (tasks c') = length (tasks c) /\
  (forall i g o, tasks c !! i = Some (mkTask g (Sending o)) ->
                 tasks c' !! i = Some (mkTask g (Sending o))).
Proof.
  intros Hb Hstep.
  destruct Hstep as [k ts g Hk | k ts Hk | cl ts i g Hi | n ts i g o Hi | ts];
    simpl in *; try discriminate.
  split; [exact Hb|]. split; [|split].
  - apply (exited_insert_same _ _ _ _ Hi). reflexivity.
  - apply length_insert.
  - intros j g' o Hj. rewrite list_lookup_insert_ne; [exact Hj|].
    intros ->. congruence.
Qed.

(** X8. Scheduling does not change the answer.  Whatever the order in
    which the goroutines run and are received, if [Permitted] returns
    [b] then [b] is the value of the function [Permitted] of this
    development: true exactly when all guards under the key are true. *)
Theorem Permitted_any_schedule (w : @World Subj) (goal' : State) guards
    (c : Config) (b : bool) :
  Rules w !! attempt_key w goal' = Some guards ->
  rtc (@Sched.step Subj (Subject w) goal') (init guards) c ->
  caller c = Returned b ->
  b = (Permitted goal' w).1.
Proof.
  intros Hk Hrun Hb. rewrite (Permitted_present _ _ _ Hk).
  eapply returned_value; [exact Hrun | exact Hb].
Qed.

(** X9. With guards that return, [Permitted] returns: from every
    reachable state all continuations are finite, some continuation
    reaches the [return], and a continuation that can go no further has
    returned the conjunction of the guards.  There is no deadlock
    between the caller and its goroutines. *)
Theorem Permitted_always_returns guards c :
  rtc step (init guards) c ->
  sn step c /\
  (exists c', rtc step c c' /\
     caller c' = Returned (receive (map (fun g => g subject goal) guards))) /\
  (forall c', rtc step c c' -> nf step c' ->
     caller c' = Returned (receive (map (fun g => g subject goal) guards))).
Proof.
  intros Hrun. pose proof (Inv_reachable _ _ _ _ Hrun) as Hinv.
  split; [apply step_terminates|]. split.
  - destruct (runs_complete _ _ guards c Hinv) as (c' & Hrun' & _ & [b Hb] & _).
    exists c'. split; [exact Hrun'|]. rewrite Hb. f_equal.
    eapply returned_value; [|exact Hb]. etransitivity; eassumption.
  - intros c' Hrun' Hnf.
    destruct (final_evaluated _ _ guards c' (Inv_rtc _ _ _ _ _ Hinv Hrun') Hnf)
      as [[b Hb] _].
    rewrite Hb. f_equal.
    eapply returned_value; [|exact Hb]. etransitivity; eassumption.
Qed.

(** X10. Once [Permitted] has returned, no goroutine exits any more:
    the number of finished goroutines stays what it was, none is
    removed, and a goroutine blocked in its send stays blocked in it.
    The goroutines not yet received at the [return] are never
    released. *)
Theorem unreceived_goroutines_stay_blocked c c' b :
  caller c = Returned b -> rtc step c c' ->
  caller c' = Returned b /\
  exited (tasks c') = exited (tasks c) /\
  length (tasks c') = length (tasks c) /\
  (forall i g o, tasks c !! i = Some (mkTask g (Sending o)) ->
                 tasks c' !! i = Some (mkTask g (Sending o))).
Proof.
  intros Hb Hrun. induction Hrun as [c|c c1 c' Hstep _ IH]; [auto|].
  destruct (after_return_step _ _ _ Hb Hstep) as (Hb1 & He1 & Hl1 & Hs1).
  destruct (IH Hb1) as (Hb' & He' & Hl' & Hs').
  split; [exact Hb'|]. split; [congruence|]. split; [congruence|].
  intros i g o Hi. apply Hs', Hs1, Hi.
Qed.

(** X11. [Permitted] does not wait for the other guards.  When some
    guard returns false there is a run in which [Permitted] returns
    false having received that guard only, every other guard being
    still inside its call. *)
Theorem Permitted_rejects_without_waiting guards i g :
  guards !! i = Some g -> g subject goal = false ->
  rtc step (init guards)
    (mkConfig (Returned false)
       (<[i := mkTask g Exited]> (map (fun g => mkTask g Running) guards))).
Proof.
  intros Hi Hfalse.
  set (running := map (fun g => mkTask g Running) guards).
  assert (running !! i = Some (mkTask g Running)) as Hrun.
  { unfold running. change (map ?f ?l) with (f <$> l).
    rewrite list_lookup_fmap, Hi. reflexivity. }
  etransitivity; [exact (launch_from [] guards)|]. simpl. fold running.
  eapply rtc_l; [apply step_launched; unfold running; rewrite length_map; reflexivity|].
  eapply rtc_l; [apply (step_eval subject goal _ _ i g); exact Hrun|].
  rewrite Hfalse.
  assert (exists n, length running = S n) as [n Hn].
  { apply lookup_lt_Some in Hrun. destruct (length running); [lia | eauto]. }
  rewrite Hn.
  eapply rtc_l.
  - apply (step_recv subject goal n _ i g false).
    apply list_lookup_insert_eq. eapply lookup_lt_Some. exact Hrun.
  - simpl. rewrite list_insert_insert_eq. reflexivity.
Qed.

End Scheduling.

(** ** The further theorems at concrete inputs *)

Lemma rejected_blocked_reachable :
  rtc (@Sched.step Thing idle_thing StateRunning) rejected_early rejected_blocked.
Proof.
  eapply rtc_l; [|exact (rtc_refl _ _)].
  exact (Sched.step_eval idle_thing StateRunning (Sched.Returned false)
           (Sched.tasks rejected_early) 1%nat (always true) eq_refl).
Defined.

Lemma Thing_Lawful : Lawful Thing.
Proof. intros s goal. reflexivity. Defined.

(** X1 at two different transitions. *)
Lemma AddRule_compose_witness :
  AddRule (AddRule (∅ : gmap Transition (list (Guard Thing)))
                   idle_to_running [always true])
          running_to_idle [always false]
  = AddRule (AddRule ∅ running_to_idle [always false])
            idle_to_running [always true].
Proof.
  apply (proj2 (AddRule_compose (∅ : gmap Transition (list (Guard Thing)))
                                built_empty)
               idle_to_running running_to_idle [always true] [always false]).
  discriminate.
Defined.

(** X2 at [CreateRuleSet(T{Idle, Running})]. *)
Lemma built_no_empty_list_witness :
  exists g gs,
    rules_T !! IfaceT (mkT (CurrentState idle_thing) StateRunning) = Some (g :: gs) /\
    g idle_thing StateRunning = true.
Proof.
  apply (proj2 (built_no_empty_list rules_T
                  (built_AddTransition ∅ idle_to_running built_empty))
               idle_thing [] StateRunning).
  vm_compute. reflexivity.
Defined.

(** X3: a second, always-true guard under a present key. *)
Lemma AddRule_never_permits_witness :
  (Permitted StateRunning
     (fresh_world (AddRule ∅ idle_to_running [always true]) idle_thing)).1 = true.
Proof.
  apply (AddRule_never_permits
           (fresh_world (AddRule ∅ idle_to_running [always true]) idle_thing)
           StateRunning idle_to_running [always true] [always true]).
  - exact (built_AddRule ∅ idle_to_running [always true] built_empty).
  - vm_compute. reflexivity.
  - vm_compute. reflexivity.
Defined.

(** X4: an always-false guard registered for Running -> Idle does not
    touch the attempt Idle -> Running. *)
Lemma AddRule_elsewhere_witness :
  (Permitted StateRunning
     (with_rules (fresh_world rules_T idle_thing)
                 (AddRule rules_T running_to_idle [always false]))).1
  = (Permitted StateRunning (fresh_world rules_T idle_thing)).1.
Proof.
  apply (f_equal fst
           (AddRule_elsewhere (fresh_world rules_T idle_thing) StateRunning
              running_to_idle [always false]
              (built_AddTransition ∅ idle_to_running built_empty)
              ltac:(discriminate))).
Defined.

(** X5 at the empty rule set. *)
Lemma AddTransition_own_attempt_witness :
  (Permitted StateRunning
     (with_rules (fresh_world ∅ idle_thing)
                 (AddTransition ∅ idle_to_running))).1 = true.
Proof.
  apply (proj2 (@AddTransition_own_attempt Thing Thing_Stater
                  (fresh_world ∅ idle_thing) StateRunning
                  idle_to_running eq_refl eq_refl)).
  intros g Hg. unfold index in Hg. simpl in Hg. rewrite lookup_empty in Hg.
  inversion Hg.
Defined.

(** X6 at a list with a repetition and the same members reordered. *)
Lemma CreateRuleSet_same_members_witness :
  (Permitted StateRunning
     (mkWorld (CreateRuleSet [IfaceT idle_to_running; IfaceT running_to_idle;
                              IfaceT idle_to_running]) idle_thing [])).1 =
  (Permitted StateRunning
     (mkWorld (CreateRuleSet [IfaceT running_to_idle; IfaceT idle_to_running])
              idle_thing [])).1.
Proof.
  apply (CreateRuleSet_same_members
           [IfaceT idle_to_running; IfaceT running_to_idle; IfaceT idle_to_running]
           [IfaceT running_to_idle; IfaceT idle_to_running]).
  intros t. rewrite !elem_of_cons. rewrite elem_of_nil. tauto.
Defined.

(** X7: Idle -> Running -> Idle -> Running along the two registered
    transitions. *)
Lemma Machine_follows_path_witness :
  Forall (fun err => err = None)
    (Transition_each [StateRunning; StateIdle; StateRunning]
       (New (CreateRuleSet [IfaceT idle_to_running; IfaceT running_to_idle])
            idle_thing)).1.
Proof.
  apply (proj2 (proj1 (Machine_follows_path
                  [IfaceT idle_to_running; IfaceT running_to_idle] idle_thing
                  [StateRunning; StateIdle; StateRunning] Thing_Lawful))).
  simpl. rewrite !elem_of_cons. repeat split; auto.
Defined.

(** X8 at the run that reaches [rejected_early]. *)
Lemma Permitted_any_schedule_witness :
  false = (Permitted StateRunning
             (fresh_world {[ IfaceT idle_to_running := two_guards ]} idle_thing)).1.
Proof.
  apply (Permitted_any_schedule
           (fresh_world {[ IfaceT idle_to_running := two_guards ]} idle_thing)
           StateRunning two_guards rejected_early false).
  - vm_compute. reflexivity.
  - exact rejected_early_reachable.
  - reflexivity.
Defined.

(** X9 at [rejected_early]. *)
Lemma Permitted_always_returns_witness :
  exists c', rtc (@Sched.step Thing idle_thing StateRunning) rejected_early c' /\
             Sched.caller c' = Sched.Returned false.
Proof.
  exact (proj1 (proj2 (Permitted_always_returns idle_thing StateRunning
                         two_guards rejected_early rejected_early_reachable))).
Defined.

(** X10 from [rejected_early] to [rejected_blocked]. *)
Lemma unreceived_goroutines_stay_blocked_witness :
  Sched.exited (Sched.tasks rejected_blocked) = Sched.exited (Sched.tasks rejected_early).
Proof.
  exact (proj1 (proj2 (unreceived_goroutines_stay_blocked idle_thing StateRunning
                         rejected_early rejected_blocked false eq_refl
                         rejected_blocked_reachable))).
Defined.

(** X11 at [two_guards], whose first guard is false. *)
Lemma Permitted_rejects_without_waiting_witness :
  rtc (@Sched.step Thing idle_thing StateRunning)
      (Sched.init two_guards) rejected_early.
Proof.
  exact (Permitted_rejects_without_waiting idle_thing StateRunning
           two_guards 0%nat (always false) eq_refl eq_refl).
Defined.

(** ** [append] and [AddRule] in memory *)
Section MemoryFacts.

Context {Subj : Type} {Stater_Subj : Stater Subj}.
Variable spare : nat -> nat.

Local Abbreviation Heap := (list (list (option (Guard Subj)))).
Local Abbreviation Mem := (@Mem Subj).

Implicit Types (h : Heap) (s : Slice) (m : Mem) (t k : Transition).
Implicit Types (x g : Guard Subj) (guards : list (Guard Subj)).

Lemma slice_ok_nil h : slice_ok h nil_slice.
Proof.
  split; [reflexivity|]. simpl. lia.
Qed.

Lemma view_empty_cap h s : slice_ok h s -> cap s = 0%nat -> view h s = [].
Proof.
  intros (Hle & _) Hcap. unfold view.
  replace (len s) with 0%nat by lia. reflexivity.
Qed.

Lemma view_length h s : slice_ok h s -> length (view h s) = len s.
Proof.
  intros (Hle & Harr). unfold view, array.
  destruct (decide (cap s = 0)%nat) as [Hz|Hnz].
  - replace (len s) with 0%nat by lia. reflexivity.
  - destruct Harr as (a & -> & Hfit); [lia|]. simpl.
    rewrite length_take, length_drop. lia.
Qed.

(** The heap after [append], seen from the slice appended to. *)
Lemma append_self h s x :
  slice_ok h s ->
  view (append spare h s x).1 (append spare h s x).2 = view h s ++ [Some x] /\
  slice_ok (append spare h s x).1 (append spare h s x).2 /\
  (0 < cap (append spare h s x).2)%nat /\
  (arr (append spare h s x).2 = arr s /\ (0 < cap s)%nat \/
   arr (append spare h s x).2 = length h).
Proof.
  intros Hok. pose proof (view_length h s Hok) as Hlen.
  destruct Hok as (Hle & Harr). unfold append.
  destruct (decide (len s < cap s)%nat) as [Hroom|Hfull]; simpl.
  - destruct Harr as (a & Ha & Hfit); [lia|].
    assert (array h s = a) as Harray by (unfold array; rewrite Ha; reflexivity).
    rewrite Harray.
    assert (view (<[arr s := <[(off s + len s)%nat := Some x]> a]> h)
                 (mkSlice (arr s) (off s) (S (len s)) (cap s))
            = view h s ++ [Some x]) as Hview.
    { unfold view. rewrite Harray. unfold array. simpl.
      rewrite list_lookup_insert_eq by (eapply lookup_lt_Some; exact Ha). simpl.
      rewrite drop_insert_ge by lia.
      replace (off s + len s - off s)%nat with (len s) by lia.
      rewrite (take_S_r _ _ (Some x)).
      - rewrite take_insert_ge by lia. reflexivity.
      - apply list_lookup_insert_eq. rewrite length_drop. lia. }
    rewrite Hview.
    split; [reflexivity|]. split; [|split; [lia | left; split; [reflexivity | lia]]].
    split; [simpl; lia|].
    simpl. intros _. eexists. split.
    + apply list_lookup_insert_eq. eapply lookup_lt_Some. exact Ha.
    + rewrite length_insert. exact Hfit.
  - match goal with |- view ?h' ?s' = _ /\ _ =>
      assert (view h' s' = view h s ++ [Some x]) as Hview end.
    { unfold view at 1, array. simpl.
      rewrite list_lookup_middle by reflexivity. simpl.
      change (Some x :: replicate (spare (S (len s))) None)
        with ([Some x] ++ replicate (spare (S (len s))) None).
      rewrite app_assoc. apply take_app_length'.
      rewrite length_app, Hlen. simpl. lia. }
    rewrite Hview.
    split; [reflexivity|]. split; [|split; [lia | right; reflexivity]].
    split; [simpl; lia|].
    simpl. intros _. eexists. split; [apply list_lookup_middle; reflexivity|].
    rewrite length_app, Hlen. simpl. rewrite length_replicate. lia.
Qed.

(** The heap after [append], seen from a slice on another array. *)
Lemma append_other h s x s2 :
  slice_ok h s -> slice_ok h s2 ->
  ((0 < cap s)%nat -> (0 < cap s2)%nat -> arr s <> arr s2) ->
  view (append spare h s x).1 s2 = view h s2 /\
  slice_ok (append spare h s x).1 s2 /\
  ((0 < cap s2)%nat -> (arr s2 < length h)%nat).
Proof.
  intros Hok Hok2 Hsep.
  assert ((0 < cap s2)%nat -> (arr s2 < length h)%nat) as Hin.
  { intros Hpos. destruct Hok2 as (_ & Harr).
    destruct (Harr Hpos) as (a & Ha & _). eapply lookup_lt_Some. exact Ha. }
  assert ((0 < cap s2)%nat ->
          (append spare h s x).1 !! arr s2 = h !! arr s2) as Hsame.
  { intros Hpos. unfold append.
    destruct (decide (len s < cap s)%nat) as [Hroom|Hfull]; simpl.
    - apply list_lookup_insert_ne. apply Hsep; lia.
    - apply lookup_app_l. apply Hin, Hpos. }
  destruct (decide (cap s2 = 0)%nat) as [Hz|Hnz].
  - assert (len s2 = 0%nat) as Hl by (destruct Hok2 as (? & _); lia).
    split; [unfold view; rewrite Hl; reflexivity|].
    split; [|lia].
    destruct Hok2 as (Hle & _). split; [exact Hle | lia].
  - assert (view (append spare h s x).1 s2 = view h s2) as Hview.
    { unfold view, array. rewrite Hsame by lia. reflexivity. }
    split; [exact Hview|]. split; [|exact Hin].
    destruct Hok2 as (Hle & Harr). split; [exact Hle|].
    intros Hpos. rewrite (Hsame Hpos). apply Harr, Hpos.
Qed.

Lemma AddRule_mem_cons m t g guards :
  AddRule_mem spare m t (g :: guards)
  = AddRule_mem spare (AddRule_mem spare m t [g]) t guards.
Proof. reflexivity. Qed.

Lemma index_mem_ok m t :
  separate m ->
  slice_ok (heap m) (index_mem m t) /\
  (forall k s2, k <> t -> table m !! k = Some s2 ->
     (0 < cap (index_mem m t))%nat -> (0 < cap s2)%nat ->
     arr (index_mem m t) <> arr s2).
Proof.
  intros [Hok Hsep]. unfold index_mem.
  destruct (table m !! t) as [s|] eqn:Ht; simpl.
  - split; [exact (Hok _ _ Ht)|]. intros k s2 Hne Hk.
    apply (Hsep t k); [congruence | exact Ht | exact Hk].
  - split; [apply slice_ok_nil|]. simpl. intros. lia.
Qed.

Lemma guards_at_index m t :
  separate m -> default [] (guards_at m t) = view (heap m) (index_mem m t).
Proof.
  intros Hsep. unfold guards_at, index_mem.
  destruct (table m !! t); [reflexivity|]. reflexivity.
Qed.

(** One [r[t] = append(r[t], g)] on a memory without sharing. *)
Lemma AddRule_mem_one m t g :
  separate m ->
  separate (AddRule_mem spare m t [g]) /\
  guards_at (AddRule_mem spare m t [g]) t
    = Some (default [] (guards_at m t) ++ [Some g]) /\
  (forall k, k <> t -> guards_at (AddRule_mem spare m t [g]) k = guards_at m k).
Proof.
  intros Hsep. destruct (index_mem_ok m t Hsep) as [Hok Hapart].
  pose proof (append_self (heap m) (index_mem m t) g Hok)
    as (Hview & Hok' & Hpos' & Harr').
  assert (forall k s2, k <> t -> table m !! k = Some s2 ->
            view (append spare (heap m) (index_mem m t) g).1 s2 = view (heap m) s2 /\
            slice_ok (append spare (heap m) (index_mem m t) g).1 s2 /\
            ((0 < cap s2)%nat -> (arr s2 < length (heap m))%nat)) as Hother.
  { intros k s2 Hne Hk. apply append_other; [exact Hok | exact (proj1 Hsep _ _ Hk)|].
    apply (Hapart k s2 Hne Hk). }
  unfold AddRule_mem. simpl.
  destruct (append spare (heap m) (index_mem m t) g) as [h' s'] eqn:Happ.
  simpl in *. split; [split|split].
  - intros k s2. simpl. rewrite lookup_insert. destruct (decide (t = k)) as [<-|Hne].
    + intros [= <-]. exact Hok'.
    + intros Hk. apply (Hother k s2); [congruence | exact Hk].
  - intros k1 k2 s1 s2 Hne. simpl. rewrite !lookup_insert.
    destruct (decide (t = k1)) as [<-|Hne1], (decide (t = k2)) as [<-|Hne2];
      try congruence.
    + intros [= <-] Hk2 _ Hpos2.
      destruct (Hother k2 s2 ltac:(congruence) Hk2) as (_ & _ & Hlt).
      destruct Harr' as [[Harr1 Hpos] | Harr1]; rewrite Harr1.
      * apply (Hapart k2 s2); [congruence | exact Hk2 | exact Hpos | exact Hpos2].
      * specialize (Hlt Hpos2). lia.
    + intros Hk1 [= <-] Hpos1 _.
      destruct (Hother k1 s1 ltac:(congruence) Hk1) as (_ & _ & Hlt).
      destruct Harr' as [[Harr1 Hpos] | Harr1]; rewrite Harr1.
      * intros Heq. apply (Hapart k1 s1 ltac:(congruence) Hk1 Hpos Hpos1).
        congruence.
      * specialize (Hlt Hpos1). lia.
    + intros Hk1 Hk2. apply (proj2 Hsep k1 k2); assumption.
  - unfold guards_at at 1. simpl. rewrite lookup_insert_eq. simpl.
    rewrite Hview, (guards_at_index m t Hsep). reflexivity.
  - intros k Hne. unfold guards_at. simpl. rewrite lookup_insert_ne by congruence.
    destruct (table m !! k) as [s2|] eqn:Hk; [|reflexivity]. simpl.
    rewrite (proj1 (Hother k s2 Hne Hk)). reflexivity.
Qed.

(** A whole [AddRule] call on a memory without sharing. *)
Lemma AddRule_mem_many m t guards :
  separate m ->
  separate (AddRule_mem spare m t guards) /\
  guards_at (AddRule_mem spare m t guards) t
    = (if guards is [] then guards_at m t
       else Some (default [] (guards_at m t) ++ (Some <$> guards))) /\
  (forall k, k <> t -> guards_at (AddRule_mem spare m t guards) k = guards_at m k).
Proof.
  revert m. induction guards as [|g guards IH]; intros m Hsep.
  - split; [exact Hsep|]. split; [reflexivity|]. reflexivity.
  - rewrite AddRule_mem_cons.
    destruct (AddRule_mem_one m t g Hsep) as (Hsep1 & Hat1 & Hoth1).
    destruct (IH _ Hsep1) as (Hsep2 & Hat2 & Hoth2).
    split; [exact Hsep2|]. split.
    + rewrite Hat2, Hat1. simpl. destruct guards as [|g' guards].
      * reflexivity.
      * rewrite <- app_assoc. reflexivity.
    + intros k Hne. rewrite (Hoth2 k Hne). apply Hoth1, Hne.
Qed.

Lemma separate_empty : separate (@Mem_empty Subj).
Proof.
  split.
  - intros k s. simpl. rewrite lookup_empty. discriminate.
  - intros k1 k2 s1 s2 _. simpl. rewrite lookup_empty. discriminate.
Qed.

Lemma abs_lookup m k :
  abs m !! k = (fun l : list (option (Guard Subj)) => omap id l) <$> guards_at m k.
Proof.
  unfold abs, guards_at. rewrite lookup_fmap.
  destruct (table m !! k); reflexivity.
Qed.

Lemma omap_id_Some guards : omap id (Some <$> guards) = guards.
Proof.
  induction guards as [|g guards IH]; [reflexivity|].
  simpl. f_equal. exact IH.
Qed.

(** On a memory without sharing, [AddRule_mem] is [AddRule] on the
    lists the memory holds. *)
Lemma AddRule_mem_abs m t guards :
  separate m ->
  abs (AddRule_mem spare m t guards) = AddRule (abs m) t guards.
Proof.
  intros Hsep. destruct (AddRule_mem_many m t guards Hsep) as (_ & Hat & Hoth).
  apply map_eq. intros k. rewrite AddRule_lookup, !abs_lookup.
  destruct (decide (k = t)) as [->|Hne].
  - rewrite Hat. destruct guards as [|g guards]; [reflexivity|].
    unfold index. rewrite abs_lookup.
    change (Some <$> g :: guards) with (Some g :: (Some <$> guards)).
    simpl. rewrite omap_app.
    change (omap id (Some g :: (Some <$> guards)))
      with (g :: omap id (Some <$> guards)).
    rewrite omap_id_Some. destruct (guards_at m t); reflexivity.
  - rewrite (Hoth k Hne). reflexivity.
Qed.

(** Memories made by the package's functions have no sharing, and hold
    the rule sets that [built] describes. *)
Lemma built_mem_separate m :
  built_mem spare m -> separate m /\ built (abs m).
Proof.
  induction 1 as [|m t guards _ [Hsep Hb]|m t _ [Hsep Hb]].
  - split; [apply separate_empty|].
    unfold abs. simpl. rewrite fmap_empty. apply built_empty.
  - split; [apply AddRule_mem_many, Hsep|].
    rewrite AddRule_mem_abs by exact Hsep. apply built_AddRule, Hb.
  - unfold AddTransition_mem. split; [apply AddRule_mem_many, Hsep|].
    rewrite AddRule_mem_abs by exact Hsep. apply built_AddTransition, Hb.
Qed.

End MemoryFacts.

(** ** A rule set only grows when its lists do not share storage *)
Section Growth.

Context {Subj : Type} {Stater_Subj : Stater Subj}.
Variable spare : nat -> nat.

Implicit Types (m : @Mem Subj) (t k : Transition) (guards : list (Guard Subj)).


End Growth.


